(** * windsurf-physics: the force model and the top-speed sweep

    A shallow embedding of [src/physics.ts] (the function [compute]) and of
    the [topSpeed] memo of [src/App.tsx].

    Numbers.  The force model is analysed over the real numbers: a JavaScript
    [number] is read as an element of [R], [Math.cos], [Math.sin] and
    [Math.hypot] as their mathematical counterparts and [Math.atan2] as the
    two-argument arctangent with values in (-PI, PI].  ECMAScript leaves the
    rounding of these library functions to the implementation, so no
    bit-level model of them exists to embed.

    The counter of the sweep loop is different: it is only ever produced by
    binary64 additions of the literal [0.1] and compared with [30], both of
    which IEEE 754 fixes completely.  It is therefore kept as a primitive
    binary64 value, and it enters the force model through its exact real
    value ([float_to_R]). *)

From Stdlib Require Import PrimFloat FloatOps SpecFloat.
From Stdlib Require Import Reals Lra Lia ZArith List Bool Sorted.
From Stdlib Require String.
From Equations Require Import Equations.
Import ListNotations.

Set Warnings "-inexact-float".

Local Open Scope R_scope.

(* ===================================================================== *)
(** ** JavaScript built-ins read over the reals                           *)
(* ===================================================================== *)

Module JsMath.

(** [Math.max(a, b)] and [Math.min(a, b)]. *)
Definition max (a b : R) : R := Rmax a b.
Definition min (a b : R) : R := Rmin a b.

(** [Math.hypot(x, y)]. *)
Definition hypot (x y : R) : R := sqrt (x * x + y * y).

(** [Math.atan2(y, x)]: the angle of the point (x, y), in (-PI, PI].
    Over the reals there is one zero, so the two results [PI] and [-PI]
    that binary64 distinguishes on the negative x axis (by the sign of a
    zero [y]) are both [PI] here. *)
Definition atan2 (y x : R) : R :=
  if Rlt_dec 0 x then atan (y / x)
  else if Rlt_dec x 0 then
    (if Rle_dec 0 y then atan (y / x) + PI else atan (y / x) - PI)
  else if Rlt_dec 0 y then PI / 2
  else if Rlt_dec y 0 then - (PI / 2)
  else 0.

End JsMath.

(* ===================================================================== *)
(** ** physics.ts                                                         *)
(* ===================================================================== *)

Module Physics.

Record Inputs : Type := mkInputs {
  trueWindSpeed : R;
  courseAngleDeg : R;
  boardSpeed : R;
  sailArea : R;
  sheetingDeg : R;
  downhaul : R;
  outhaul : R
}.

Record Outputs : Type := mkOutputs {
  apparentWindSpeed : R;
  apparentWindAngleDeg : R;
  alphaDeg : R;
  cl : R;
  cd : R;
  liftN : R;
  dragN : R;
  driveN : R;
  sideN : R;
  powerW : R;
  Va_x : R;
  Va_y : R;
  L_x : R;
  L_y : R;
  D_x : R;
  D_y : R;
  F_x : R;
  F_y : R
}.

Definition DEG : R := PI / 180.
Definition RAD : R := 180 / PI.

Definition clamp (x lo hi : R) : R := JsMath.max lo (JsMath.min hi x).
Definition vecMag (x y : R) : R := JsMath.hypot x y.
Definition angleDegFromXY (x y : R) : R := JsMath.atan2 y x * RAD.

(** *** The two normalisation loops

    [while (alphaDeg > 180) alphaDeg -= 360;] and
    [while (alphaDeg < -180) alphaDeg += 360;], each as a recursive function
    of the value of [alphaDeg] on entry.  Over the reals both terminate from
    any starting value; the measures count the remaining turns. *)

Definition turns_above (a : R) : nat := Z.to_nat (up ((a - 180) / 360)).
Definition turns_below (a : R) : nat := Z.to_nat (up ((- 180 - a) / 360)).

Lemma up_pred (x : R) : up (x - 1) = (up x - 1)%Z.
Proof.
  symmetry. apply tech_up; destruct (archimed x) as [Hgt Hle];
    rewrite minus_IZR; lra.
Qed.

Lemma up_pos (x : R) : 0 < x -> (1 <= up x)%Z.
Proof.
  intros Hx. destruct (archimed x) as [Hgt _].
  assert (0 < IZR (up x)) as H by lra.
  apply lt_IZR in H. lia.
Qed.

Lemma turns_above_decr (a : R) :
  a > 180 -> (turns_above (a - 360) < turns_above a)%nat.
Proof.
  intros Ha. unfold turns_above.
  replace ((a - 360 - 180) / 360) with ((a - 180) / 360 - 1) by lra.
  rewrite up_pred.
  assert (1 <= up ((a - 180) / 360))%Z by (apply up_pos; lra).
  lia.
Qed.

Lemma turns_below_decr (a : R) :
  a < - 180 -> (turns_below (a + 360) < turns_below a)%nat.
Proof.
  intros Ha. unfold turns_below.
  replace ((- 180 - (a + 360)) / 360) with ((- 180 - a) / 360 - 1) by lra.
  rewrite up_pred.
  assert (1 <= up ((- 180 - a) / 360))%Z by (apply up_pos; lra).
  lia.
Qed.

Equations? while_above (a : R) : R by wf (turns_above a) lt :=
  while_above a with Rgt_dec a 180 => {
    | left _ => while_above (a - 360)
    | right _ => a }.
Proof. now apply turns_above_decr. Qed.

Equations? while_below (a : R) : R by wf (turns_below a) lt :=
  while_below a with Rlt_dec a (- 180) => {
    | left _ => while_below (a + 360)
    | right _ => a }.
Proof. now apply turns_below_decr. Qed.

(** How many times each loop body runs. *)

Equations? iters_above (a : R) : nat by wf (turns_above a) lt :=
  iters_above a with Rgt_dec a 180 => {
    | left _ => S (iters_above (a - 360))
    | right _ => O }.
Proof. now apply turns_above_decr. Qed.

Equations? iters_below (a : R) : nat by wf (turns_below a) lt :=
  iters_below a with Rlt_dec a (- 180) => {
    | left _ => S (iters_below (a + 360))
    | right _ => O }.
Proof. now apply turns_below_decr. Qed.

(** *** [compute] *)

Definition compute (inputs : Inputs) : Outputs :=
  let tw := trueWindSpeed inputs in
  let course := courseAngleDeg inputs * DEG in
  let Vw_x := tw * cos (PI - course) in
  let Vw_y := tw * sin (PI - course) in
  let Vb_x := boardSpeed inputs in
  let Vb_y := 0 in
  let Va_x := Vw_x - Vb_x in
  let Va_y := Vw_y - Vb_y in
  let Va := vecMag Va_x Va_y in
  let awaDeg := angleDegFromXY Va_x Va_y in
  let sailAngleDeg := clamp (sheetingDeg inputs) (- 85) 85 in
  let alphaDeg := awaDeg - sailAngleDeg in
  let alphaDeg := while_above alphaDeg in
  let alphaDeg := while_below alphaDeg in
  let rho := 1.225 in
  let A := sailArea inputs in
  let flatness := clamp (0.5 * downhaul inputs + 0.5 * outhaul inputs) 0 1 in
  let stallDeg := 18 - 5 * flatness in
  let clAlphaPerDeg := 0.11 in
  let clMax := 1.2 - 0.4 * flatness in
  let alphaLin := clamp alphaDeg (- stallDeg) stallDeg in
  let cl := clAlphaPerDeg * alphaLin in
  let cl := clamp cl (- clMax) clMax in
  let cd0 := 0.08 - 0.02 * flatness in
  let k := 0.06 in
  let cd := cd0 + k * cl * cl in
  let q := 0.5 * rho * Va * Va in
  let liftN := q * A * cl in
  let dragN := q * A * cd in
  let eps := 1e-9 in
  let ux := Va_x / (Va + eps) in
  let uy := Va_y / (Va + eps) in
  let D_x := - dragN * ux in
  let D_y := - dragN * uy in
  let sign := if Rge_dec alphaDeg 0 then 1 else -1 in
  let L_x := sign * liftN * (- uy) in
  let L_y := sign * liftN * ux in
  let F_x := L_x + D_x in
  let F_y := L_y + D_y in
  {| apparentWindSpeed := Va;
     apparentWindAngleDeg := awaDeg;
     alphaDeg := alphaDeg;
     cl := cl;
     cd := cd;
     liftN := liftN;
     dragN := dragN;
     Va_x := Va_x;
     Va_y := Va_y;
     L_x := L_x;
     L_y := L_y;
     D_x := D_x;
     D_y := D_y;
     F_x := F_x;
     F_y := F_y;
     driveN := F_x;
     sideN := F_y;
     powerW := F_x * boardSpeed inputs |}.

(** Two locals of [compute] as functions of the input: the value of
    [alphaDeg] on entry to the loops, and [flatness]. *)
Definition alpha_entry (i : Inputs) : R :=
  apparentWindAngleDeg (compute i) - clamp (sheetingDeg i) (- 85) 85.

Definition flatness_of (i : Inputs) : R :=
  clamp (0.5 * downhaul i + 0.5 * outhaul i) 0 1.

(** What the two loops do to a value within one turn of [-180, 180]: one of
    them runs once, or neither runs.  [normalised a r n m]: from [a] the
    loops leave [r], the first body having run [n] times and the second
    [m] times. *)
Inductive normalised (a : R) : R -> nat -> nat -> Prop :=
| norm_wrap_down :
    180 < a -> normalised a (a - 360) 1 0
| norm_wrap_up :
    a < - 180 -> normalised a (a + 360) 0 1
| norm_keep :
    - 180 <= a <= 180 -> normalised a a 0 0.

(** [{ ...inputs, boardSpeed: V }] *)
Definition with_boardSpeed (inputs : Inputs) (V : R) : Inputs :=
  {| trueWindSpeed := trueWindSpeed inputs;
     courseAngleDeg := courseAngleDeg inputs;
     boardSpeed := V;
     sailArea := sailArea inputs;
     sheetingDeg := sheetingDeg inputs;
     downhaul := downhaul inputs;
     outhaul := outhaul inputs |}.

(** The same input with another sheeting angle. *)
Definition with_sheetingDeg (inputs : Inputs) (s : R) : Inputs :=
  {| trueWindSpeed := trueWindSpeed inputs;
     courseAngleDeg := courseAngleDeg inputs;
     boardSpeed := boardSpeed inputs;
     sailArea := sailArea inputs;
     sheetingDeg := s;
     downhaul := downhaul inputs;
     outhaul := outhaul inputs |}.

(** *** Inputs used as examples *)

(** An input whose apparent wind comes from 135 degrees to port and whose
    sail is sheeted to 45 degrees. *)
Definition aft_quarter_input : Inputs :=
  {| trueWindSpeed := 1; courseAngleDeg := 270; boardSpeed := 1;
     sailArea := 1; sheetingDeg := 45; downhaul := 0; outhaul := 0 |}.

(** The regression scenario of the specification with its sheeting angle
    of 120. *)
Definition oversheeted_input : Inputs :=
  {| trueWindSpeed := 10; courseAngleDeg := 120; boardSpeed := 8;
     sailArea := 6.5; sheetingDeg := 120; downhaul := 0.4; outhaul := 0.4 |}.

(** The initial state of the App with the course slider moved to 0 (dead
    downwind): the apparent wind blows along -x at every board speed that
    is not negative. *)
Definition downwind_input : Inputs :=
  {| trueWindSpeed := 10; courseAngleDeg := 0; boardSpeed := 8;
     sailArea := 6.5; sheetingDeg := 20; downhaul := 0.4; outhaul := 0.3 |}.

End Physics.

(* ===================================================================== *)
(** ** App.tsx: the top-speed sweep                                       *)
(* ===================================================================== *)

Module App.

Import Physics.

(** The exact real value of a binary64 number.  The sweep counter is always
    finite (see [sweep_samples_finite]); the last branch is never taken
    for it. *)
Definition float_to_R (f : float) : R :=
  match Prim2SF f with
  | S754_zero _ => 0
  | S754_finite s m e =>
      (if s then - IZR (Zpos m) else IZR (Zpos m))
      * (if (0 <=? e)%Z then IZR (2 ^ e) else / IZR (2 ^ (- e)))
  | _ => 0
  end.

Definition is_finite (f : float) : bool :=
  match Prim2SF f with
  | S754_zero _ | S754_finite _ _ _ => true
  | _ => false
  end.

Definition is_nonneg (f : float) : bool :=
  match Prim2SF f with
  | S754_zero _ | S754_finite false _ _ => true
  | _ => false
  end.

Record TopSpeedResult : Type := mkTopSpeedResult {
  mps : float;
  kn : R;
  driveN : R;
  waterDragN : R
}.

(** [for (let V = 0; V <= 30; V += 0.1) { ...; if (sat(V)) best = V; }]
    from the state [(V, best)], where [sat V] is the outcome of the test
    [drive >= waterDrag] at [V].  [fuel] bounds the number of evaluations
    of the loop condition. *)
Fixpoint sweep (sat : float -> bool) (fuel : nat) (V best : float)
  : option float :=
  match fuel with
  | O => None
  | S fuel' =>
      if (V <=? 30)%float
      then sweep sat fuel' (V + 0.1)%float (if sat V then V else best)
      else Some best
  end.

(** The test of the loop body at the sample [V]. *)
Definition drive_at (inputs : Inputs) (V : float) : R :=
  let outV := compute (with_boardSpeed inputs (float_to_R V)) in
  JsMath.max 0 (- Physics.driveN outV).

Definition waterDrag_at (waterC0 waterC2 : R) (V : float) : R :=
  waterC0 + waterC2 * float_to_R V * float_to_R V.

Definition sat_at (inputs : Inputs) (waterC0 waterC2 : R) (V : float) : bool :=
  let drive := drive_at inputs V in
  let waterDrag := waterDrag_at waterC0 waterC2 V in
  if Rge_dec drive waterDrag then true else false.

Definition topSpeed (fuel : nat) (inputs : Inputs) (waterC0 waterC2 : R)
  : option TopSpeedResult :=
  match sweep (sat_at inputs waterC0 waterC2) fuel 0%float 0%float with
  | None => None
  | Some best =>
      let waterAtBest :=
        waterC0 + waterC2 * float_to_R best * float_to_R best in
      let outAtBest := compute (with_boardSpeed inputs (float_to_R best)) in
      Some {| mps := best;
              kn := float_to_R best * 1.943844;
              driveN := - Physics.driveN outAtBest;
              waterDragN := waterAtBest |}
  end.

(** The speeds the loop body is run at, in order, and whether the loop
    condition fails within [fuel] evaluations. *)
Fixpoint samples_from (fuel : nat) (V : float) : list float :=
  match fuel with
  | O => []
  | S fuel' =>
      if (V <=? 30)%float then V :: samples_from fuel' (V + 0.1)%float else []
  end.

Fixpoint halts (fuel : nat) (V : float) : bool :=
  match fuel with
  | O => false
  | S fuel' => if (V <=? 30)%float then halts fuel' (V + 0.1)%float else true
  end.

Definition sweep_samples : list float := samples_from 301 0%float.

(** The effect of one run of the loop body on [best]. *)
Definition keep_if_sat (sat : float -> bool) (best V : float) : float :=
  if sat V then V else best.

End App.

(* ===================================================================== *)
(** ** The apparent wind angle on binary64 numbers                        *)
(* ===================================================================== *)

Module Binary64.

(** Lines 54-72 of [compute] on binary64 numbers, as far as IEEE 754 and
    ECMAScript fix the result bit for bit: the arithmetic always, and
    [Math.cos], [Math.sin] and [Math.atan2] at the arguments where the
    language names the result ([None] where it is left to the
    implementation).  This is where the sign of a zero, which the real
    numbers do not have, decides the angle. *)

Definition PI : float := 3.141592653589793%float.
Definition DEG : float := (PI / 180)%float.
Definition RAD : float := (180 / PI)%float.

Definition is_zero (x : float) : bool :=
  match Prim2SF x with
  | S754_zero _ => true
  | _ => false
  end.

(** The sign bit of a number that is not NaN. *)
Definition sign_bit (x : float) : option bool :=
  match Prim2SF x with
  | S754_zero s | S754_infinity s | S754_finite s _ _ => Some s
  | S754_nan => None
  end.

(** [Math.cos(+-0) = 1], [Math.sin(+-0) = +-0]. *)
Definition cos (x : float) : option float :=
  if is_zero x then Some 1%float else None.
Definition sin (x : float) : option float :=
  if is_zero x then Some x else None.

(** [Math.atan2(y, x)] for a zero [y]: [+-0] when [x] is positive or [+0],
    [+-PI] when [x] is negative or [-0], with the sign of [y]. *)
Definition atan2 (y x : float) : option float :=
  match Prim2SF y, sign_bit x with
  | S754_zero false, Some false => Some 0%float
  | S754_zero false, Some true => Some PI
  | S754_zero true, Some false => Some (- 0)%float
  | S754_zero true, Some true => Some (- PI)%float
  | _, _ => None
  end.

Definition angleDegFromXY (x y : float) : option float :=
  match atan2 y x with
  | Some a => Some (a * RAD)%float
  | None => None
  end.

(** [awaDeg] of [compute] from the three inputs it depends on. *)
Definition awaDeg (trueWindSpeed courseAngleDeg boardSpeed : float)
  : option float :=
  let tw := trueWindSpeed in
  let course := (courseAngleDeg * DEG)%float in
  match cos (PI - course)%float, sin (PI - course)%float with
  | Some c, Some s =>
      let Vw_x := (tw * c)%float in
      let Vw_y := (tw * s)%float in
      let Vb_x := boardSpeed in
      let Vb_y := 0%float in
      let Va_x := (Vw_x - Vb_x)%float in
      let Va_y := (Vw_y - Vb_y)%float in
      angleDegFromXY Va_x Va_y
  | _, _ => None
  end.

End Binary64.

(* ===================================================================== *)
(** ** Facts about the helpers of physics.ts                              *)
(* ===================================================================== *)

Section PhysicsFacts.

Import Physics.

Lemma clamp_lower (x lo hi : R) : lo <= clamp x lo hi.
Proof. unfold clamp, JsMath.max. apply Rmax_l. Qed.

Lemma clamp_upper (x lo hi : R) : lo <= hi -> clamp x lo hi <= hi.
Proof.
  intros Hle. unfold clamp, JsMath.max, JsMath.min.
  apply Rmax_lub; [exact Hle | apply Rmin_l].
Qed.

Lemma clamp_inside (x lo hi : R) : lo <= x <= hi -> clamp x lo hi = x.
Proof.
  intros [Hlo Hhi]. unfold clamp, JsMath.max, JsMath.min.
  rewrite (Rmin_right hi x Hhi). now apply Rmax_right.
Qed.

Lemma clamp_over (x lo hi : R) : lo <= hi -> hi <= x -> clamp x lo hi = hi.
Proof.
  intros Hle Hx. unfold clamp, JsMath.max, JsMath.min.
  rewrite (Rmin_left hi x Hx). now apply Rmax_right.
Qed.

Lemma clamp_under (x lo hi : R) : lo <= hi -> x <= lo -> clamp x lo hi = lo.
Proof.
  intros Hle Hx. unfold clamp, JsMath.max, JsMath.min.
  rewrite (Rmin_right hi x) by lra. now apply Rmax_left.
Qed.

Lemma clamp_idem (x lo hi : R) :
  lo <= hi -> clamp (clamp x lo hi) lo hi = clamp x lo hi.
Proof.
  intros Hle. apply clamp_inside. split;
    [apply clamp_lower | now apply clamp_upper].
Qed.

(** [Math.atan2] over the reals takes its values in (-PI, PI]. *)
Lemma atan2_range (y x : R) : - PI < JsMath.atan2 y x <= PI.
Proof.
  pose proof PI_RGT_0 as Hpi.
  unfold JsMath.atan2.
  destruct (Rlt_dec 0 x) as [Hx | Hx].
  - pose proof (atan_bound (y / x)). lra.
  - destruct (Rlt_dec x 0) as [Hx' | Hx'].
    + destruct (Rle_dec 0 y) as [Hy | Hy].
      * assert (y / x <= 0) as Hq.
        { assert (/ x < 0) by now apply Rinv_lt_0_compat.
          unfold Rdiv. nra. }
        pose proof (atan_bound (y / x)) as Hb.
        destruct Hq as [Hq | Hq].
        -- pose proof (atan_increasing _ _ Hq) as Hinc.
           rewrite atan_0 in Hinc. lra.
        -- rewrite Hq, atan_0. lra.
      * assert (0 < y / x) as Hq.
        { assert (/ x < 0) by now apply Rinv_lt_0_compat.
          unfold Rdiv. nra. }
        pose proof (atan_bound (y / x)) as Hb.
        pose proof (atan_increasing _ _ Hq) as Hinc.
        rewrite atan_0 in Hinc. lra.
    + destruct (Rlt_dec 0 y); [lra |].
      destruct (Rlt_dec y 0); lra.
Qed.

Lemma angleDegFromXY_range (x y : R) : - 180 < angleDegFromXY x y <= 180.
Proof.
  pose proof PI_RGT_0 as Hpi.
  pose proof (atan2_range y x) as [Hlo Hhi].
  unfold angleDegFromXY, RAD.
  assert (0 < / PI) as Hinv by now apply Rinv_0_lt_compat.
  assert (PI * / PI = 1) as Hone by (apply Rinv_r; lra).
  unfold Rdiv. split; nra.
Qed.

(** The loops, case by case. *)

Lemma while_above_done (a : R) : a <= 180 -> while_above a = a.
Proof.
  intros Ha. rewrite while_above_equation_1.
  destruct (Rgt_dec a 180); [lra | reflexivity].
Qed.

Lemma while_above_step (a : R) :
  a > 180 -> while_above a = while_above (a - 360).
Proof.
  intros Ha. rewrite while_above_equation_1.
  destruct (Rgt_dec a 180); [reflexivity | lra].
Qed.

Lemma while_below_done (a : R) : - 180 <= a -> while_below a = a.
Proof.
  intros Ha. rewrite while_below_equation_1.
  destruct (Rlt_dec a (- 180)); [lra | reflexivity].
Qed.

Lemma while_below_step (a : R) :
  a < - 180 -> while_below a = while_below (a + 360).
Proof.
  intros Ha. rewrite while_below_equation_1.
  destruct (Rlt_dec a (- 180)); [reflexivity | lra].
Qed.

Lemma iters_above_done (a : R) : a <= 180 -> iters_above a = O.
Proof.
  intros Ha. rewrite iters_above_equation_1.
  destruct (Rgt_dec a 180); [lra | reflexivity].
Qed.

Lemma iters_above_step (a : R) :
  a > 180 -> iters_above a = S (iters_above (a - 360)).
Proof.
  intros Ha. rewrite iters_above_equation_1.
  destruct (Rgt_dec a 180); [reflexivity | lra].
Qed.

Lemma iters_below_done (a : R) : - 180 <= a -> iters_below a = O.
Proof.
  intros Ha. rewrite iters_below_equation_1.
  destruct (Rlt_dec a (- 180)); [lra | reflexivity].
Qed.

Lemma iters_below_step (a : R) :
  a < - 180 -> iters_below a = S (iters_below (a + 360)).
Proof.
  intros Ha. rewrite iters_below_equation_1.
  destruct (Rlt_dec a (- 180)); [reflexivity | lra].
Qed.

(** The counters count the loops' own steps: each loop leaves the value
    it entered with, moved by 360 once per run of its body, and leaves it
    with its condition false. *)

Lemma while_above_exit (a : R) : while_above a <= 180.
Proof. funelim (while_above a); [assumption | lra]. Qed.

Lemma while_below_exit (a : R) : - 180 <= while_below a.
Proof. funelim (while_below a); [assumption | lra]. Qed.

Lemma while_above_iters (a : R) :
  while_above a = a - 360 * INR (iters_above a).
Proof.
  funelim (iters_above a).
  - rewrite while_above_step by assumption.
    match goal with IH : while_above _ = _ |- _ => rewrite IH end.
    rewrite S_INR. lra.
  - rewrite while_above_done by lra. simpl. lra.
Qed.

Lemma while_below_iters (a : R) :
  while_below a = a + 360 * INR (iters_below a).
Proof.
  funelim (iters_below a).
  - rewrite while_below_step by assumption.
    match goal with IH : while_below _ = _ |- _ => rewrite IH end.
    rewrite S_INR. lra.
  - rewrite while_below_done by lra. simpl. lra.
Qed.

End PhysicsFacts.

(* ===================================================================== *)
(** ** The fields of [compute] in terms of one another                    *)
(* ===================================================================== *)

Section ComputeFields.

Import Physics.

Variable inputs : Inputs.

Lemma awaDeg_compute :
  apparentWindAngleDeg (compute inputs)
  = angleDegFromXY (Va_x (compute inputs)) (Va_y (compute inputs)).
Proof. reflexivity. Qed.

Lemma alphaDeg_compute :
  alphaDeg (compute inputs) = while_below (while_above (alpha_entry inputs)).
Proof. reflexivity. Qed.

Lemma cl_compute :
  cl (compute inputs)
  = clamp (0.11 * clamp (alphaDeg (compute inputs))
                        (- (18 - 5 * flatness_of inputs))
                        (18 - 5 * flatness_of inputs))
          (- (1.2 - 0.4 * flatness_of inputs))
          (1.2 - 0.4 * flatness_of inputs).
Proof. reflexivity. Qed.

Lemma cd_compute :
  cd (compute inputs)
  = 0.08 - 0.02 * flatness_of inputs
    + 0.06 * cl (compute inputs) * cl (compute inputs).
Proof. reflexivity. Qed.

Lemma Va_compute :
  apparentWindSpeed (compute inputs)
  = vecMag (Va_x (compute inputs)) (Va_y (compute inputs)).
Proof. reflexivity. Qed.

Lemma Va_x_compute :
  Va_x (compute inputs)
  = trueWindSpeed inputs * cos (PI - courseAngleDeg inputs * DEG)
    - boardSpeed inputs.
Proof. reflexivity. Qed.

Lemma Va_y_compute :
  Va_y (compute inputs)
  = trueWindSpeed inputs * sin (PI - courseAngleDeg inputs * DEG) - 0.
Proof. reflexivity. Qed.

Lemma liftN_compute :
  liftN (compute inputs)
  = 0.5 * 1.225 * apparentWindSpeed (compute inputs)
    * apparentWindSpeed (compute inputs)
    * sailArea inputs * cl (compute inputs).
Proof. reflexivity. Qed.

Lemma dragN_compute :
  dragN (compute inputs)
  = 0.5 * 1.225 * apparentWindSpeed (compute inputs)
    * apparentWindSpeed (compute inputs)
    * sailArea inputs * cd (compute inputs).
Proof. reflexivity. Qed.

Lemma L_x_compute :
  L_x (compute inputs)
  = (if Rge_dec (alphaDeg (compute inputs)) 0 then 1 else -1)
    * liftN (compute inputs)
    * - (Va_y (compute inputs) / (apparentWindSpeed (compute inputs) + 1e-9)).
Proof. reflexivity. Qed.

Lemma L_y_compute :
  L_y (compute inputs)
  = (if Rge_dec (alphaDeg (compute inputs)) 0 then 1 else -1)
    * liftN (compute inputs)
    * (Va_x (compute inputs) / (apparentWindSpeed (compute inputs) + 1e-9)).
Proof. reflexivity. Qed.

Lemma D_x_compute :
  D_x (compute inputs)
  = - dragN (compute inputs)
    * (Va_x (compute inputs) / (apparentWindSpeed (compute inputs) + 1e-9)).
Proof. reflexivity. Qed.

Lemma F_x_compute :
  F_x (compute inputs) = L_x (compute inputs) + D_x (compute inputs).
Proof. reflexivity. Qed.

Lemma driveN_compute : driveN (compute inputs) = F_x (compute inputs).
Proof. reflexivity. Qed.

End ComputeFields.

(* ===================================================================== *)
(** ** The angle of attack                                                *)
(* ===================================================================== *)

Section AngleOfAttack.

Import Physics.

Lemma sail_angle_range (s : R) : - 85 <= clamp s (- 85) 85 <= 85.
Proof. split; [apply clamp_lower | apply clamp_upper; lra]. Qed.

(** On entry to the loops [alphaDeg] is within one turn of the target
    interval. *)
Lemma alpha_entry_range (i : Inputs) : - 265 < alpha_entry i <= 265.
Proof.
  unfold alpha_entry. rewrite awaDeg_compute.
  pose proof (angleDegFromXY_range (Va_x (compute i)) (Va_y (compute i))).
  pose proof (sail_angle_range (sheetingDeg i)). lra.
Qed.

Lemma normalise_one_turn (a : R) :
  - 540 <= a <= 540 ->
  normalised a (while_below (while_above a))
             (iters_above a) (iters_below (while_above a)).
Proof.
  intros [Hlo Hhi].
  destruct (Rgt_dec a 180) as [Hgt | Hle].
  - rewrite (while_above_step a Hgt), (iters_above_step a Hgt).
    rewrite while_above_done, iters_above_done by lra.
    rewrite while_below_done, iters_below_done by lra.
    now constructor.
  - rewrite while_above_done, iters_above_done by lra.
    destruct (Rlt_dec a (- 180)) as [Hlt | Hge].
    + rewrite (while_below_step a Hlt), (iters_below_step a Hlt).
      rewrite while_below_done, iters_below_done by lra.
      now constructor.
    + rewrite while_below_done, iters_below_done by lra.
      constructor. lra.
Qed.

Lemma alpha_normalised (i : Inputs) :
  normalised (alpha_entry i) (alphaDeg (compute i))
             (iters_above (alpha_entry i))
             (iters_below (while_above (alpha_entry i))).
Proof.
  rewrite alphaDeg_compute. apply normalise_one_turn.
  pose proof (alpha_entry_range i). lra.
Qed.

(** The denominator of the unit vector is positive. *)
Lemma hypot_nonneg (x y : R) : 0 <= JsMath.hypot x y.
Proof. unfold JsMath.hypot. apply sqrt_pos. Qed.

Lemma Va_nonneg (i : Inputs) : 0 <= apparentWindSpeed (compute i).
Proof. rewrite Va_compute. apply hypot_nonneg. Qed.

End AngleOfAttack.

(* ===================================================================== *)
(** ** Claims about [compute]                                            *)
(* ===================================================================== *)

Import Physics.

(** C1 (as amended): for every input the [alphaDeg] field of [compute] lies
    in the closed interval from -180 to 180, and it is -180 exactly when the
    apparent wind angle minus the clamped sheeting angle is -180: the second
    loop tests [alphaDeg < -180] and leaves that value alone. *)
Theorem C1_alphaDeg_closed_range (i : Inputs) :
  - 180 <= alphaDeg (compute i) <= 180
  /\ (alphaDeg (compute i) = - 180
      <-> apparentWindAngleDeg (compute i)
          - clamp (sheetingDeg i) (- 85) 85 = - 180).
Proof.
  pose proof (alpha_entry_range i) as Hr.
  change (apparentWindAngleDeg (compute i) - clamp (sheetingDeg i) (- 85) 85)
    with (alpha_entry i).
  destruct (alpha_normalised i); repeat split; intros; lra.
Qed.

Lemma aft_quarter_Va_x : Va_x (compute aft_quarter_input) = - 1.
Proof.
  rewrite Va_x_compute. cbn [aft_quarter_input trueWindSpeed courseAngleDeg boardSpeed].
  replace (PI - 270 * DEG) with (- (PI / 2)) by (unfold DEG; lra).
  rewrite cos_neg, cos_PI2. lra.
Qed.

Lemma aft_quarter_Va_y : Va_y (compute aft_quarter_input) = - 1.
Proof.
  rewrite Va_y_compute. cbn [aft_quarter_input trueWindSpeed courseAngleDeg].
  replace (PI - 270 * DEG) with (- (PI / 2)) by (unfold DEG; lra).
  rewrite sin_neg, sin_PI2. lra.
Qed.

Lemma atan2_third_quadrant_diagonal : JsMath.atan2 (- 1) (- 1) = - (3 * PI / 4).
Proof.
  unfold JsMath.atan2.
  destruct (Rlt_dec 0 (- 1)); [lra |].
  destruct (Rlt_dec (- 1) 0); [| lra].
  destruct (Rle_dec 0 (- 1)); [lra |].
  replace (- 1 / - 1) with 1 by lra.
  rewrite atan_1. lra.
Qed.

Lemma aft_quarter_awaDeg :
  apparentWindAngleDeg (compute aft_quarter_input) = - 135.
Proof.
  rewrite awaDeg_compute, aft_quarter_Va_x, aft_quarter_Va_y.
  unfold angleDegFromXY. rewrite atan2_third_quadrant_diagonal.
  unfold RAD. pose proof PI_RGT_0. field. lra.
Qed.

(** C1 (counterexample): at [aft_quarter_input] the angle of attack is
    exactly -180, which the half-open interval excludes. *)
Lemma C1_alphaDeg_minus_180 :
  alphaDeg (compute aft_quarter_input) = - 180
  /\ ~ (- 180 < alphaDeg (compute aft_quarter_input) <= 180).
Proof.
  assert (alphaDeg (compute aft_quarter_input) = - 180) as Heq.
  { rewrite alphaDeg_compute. unfold alpha_entry.
    rewrite aft_quarter_awaDeg. cbn [aft_quarter_input sheetingDeg].
    rewrite clamp_inside by lra.
    replace (- 135 - 45) with (- 180) by lra.
    rewrite while_above_done by lra. apply while_below_done. lra. }
  split; [exact Heq |]. rewrite Heq. lra.
Qed.

(** C8 (as amended): [compute] is total, and on every input each of the
    two normalisation loops runs its body at most once (and at most one of
    them runs at all): the apparent wind angle lies in [-180, 180], the sail
    angle in [-85, 85], so [alphaDeg] enters the loops in [-265, 265].  The
    two divisions have a positive denominator.  ([compute] is a function of
    the model, so it returns on every input; the loops are defined by
    recursion on the number of turns left, from any real starting value.) *)
Theorem C8_compute_total (i : Inputs) :
  (- 180 <= apparentWindAngleDeg (compute i) <= 180)
  /\ (- 85 <= clamp (sheetingDeg i) (- 85) 85 <= 85)
  /\ (- 265 <= alpha_entry i <= 265)
  /\ alphaDeg (compute i) = while_below (while_above (alpha_entry i))
  /\ alphaDeg (compute i)
     = alpha_entry i - 360 * INR (iters_above (alpha_entry i))
       + 360 * INR (iters_below (while_above (alpha_entry i)))
  /\ (iters_above (alpha_entry i) <= 1)%nat
  /\ (iters_below (while_above (alpha_entry i)) <= 1)%nat
  /\ (iters_above (alpha_entry i)
      + iters_below (while_above (alpha_entry i)) <= 1)%nat
  /\ 0 < apparentWindSpeed (compute i) + 1e-9.
Proof.
  split.
  { rewrite awaDeg_compute.
    pose proof (angleDegFromXY_range (Va_x (compute i)) (Va_y (compute i))).
    lra. }
  split; [apply sail_angle_range |].
  split; [pose proof (alpha_entry_range i); lra |].
  split; [apply alphaDeg_compute |].
  split.
  { rewrite alphaDeg_compute, while_below_iters, while_above_iters. ring. }
  pose proof (Va_nonneg i) as Hva.
  destruct (alpha_normalised i); repeat split; try lia; lra.
Qed.

(** C8 (counterexample): in binary64 the apparent wind angle reaches -180,
    outside (-180, 180].  Heading upwind (course 180, where [180 * DEG] is
    [Math.PI] exactly) with a true wind speed of [-0] at board speed 5, or
    of -1 at board speed 0, the y component of the apparent wind is the
    product of a negative number or zero with [Math.sin(0) = +0], a negative
    zero; [Math.atan2(-0, x)] is [-PI] for negative [x], and [-PI * RAD] is
    -180. *)
Lemma C8_apparent_wind_angle_minus_180 :
  Binary64.awaDeg (- 0)%float 180%float 5%float = Some (- 180)%float
  /\ Binary64.awaDeg (- 1)%float 180%float 0%float = Some (- 180)%float
  /\ Binary64.angleDegFromXY (- 5)%float (- 0)%float = Some (- 180)%float
  /\ (- 180 <? - 180)%float = false.
Proof. repeat split; vm_compute; reflexivity. Qed.

(** C3: for every input, [driveN] is [F_x], [sideN] is [F_y], and [powerW]
    is [driveN] times the board speed of the input. *)
Theorem C3_drive_side_power (i : Inputs) :
  driveN (compute i) = F_x (compute i)
  /\ sideN (compute i) = F_y (compute i)
  /\ powerW (compute i) = driveN (compute i) * boardSpeed i.
Proof.
  unfold compute; cbn [driveN sideN powerW F_x F_y].
  repeat split.
Qed.

(** The trim constants: [flatness] is in [0, 1], so the stall angle and the
    lift ceiling are positive. *)
Lemma flatness_range (i : Inputs) : 0 <= flatness_of i <= 1.
Proof.
  unfold flatness_of. split; [apply clamp_lower | apply clamp_upper; lra].
Qed.

(** C5: for every input, [cl] lies between [-clMax] and [clMax], where
    [clMax = 1.2 - 0.4 * flatness] and
    [flatness = clamp (0.5 * downhaul + 0.5 * outhaul) 0 1]. *)
Theorem C5_cl_within_clMax (i : Inputs) :
  let flatness := clamp (0.5 * downhaul i + 0.5 * outhaul i) 0 1 in
  let clMax := 1.2 - 0.4 * flatness in
  - clMax <= cl (compute i) <= clMax.
Proof.
  intros flatness clMax.
  pose proof (flatness_range i) as Hf.
  change (flatness_of i) with flatness in Hf.
  rewrite cl_compute.
  change (1.2 - 0.4 * flatness_of i) with clMax.
  split; [apply clamp_lower | apply clamp_upper].
  subst clMax. lra.
Qed.

(** C6: when [sheetingDeg] is outside [-85, 85], [compute] returns the very
    same record as on the input whose [sheetingDeg] is the clamped value,
    and that value is 85 (above) or -85 (below). *)
Theorem C6_sheeting_clamped (i : Inputs) :
  sheetingDeg i < - 85 \/ 85 < sheetingDeg i ->
  compute i = compute (with_sheetingDeg i (clamp (sheetingDeg i) (- 85) 85))
  /\ (85 < sheetingDeg i -> clamp (sheetingDeg i) (- 85) 85 = 85)
  /\ (sheetingDeg i < - 85 -> clamp (sheetingDeg i) (- 85) 85 = - 85).
Proof.
  intros _. split; [| split].
  - unfold compute.
    cbn [with_sheetingDeg trueWindSpeed courseAngleDeg boardSpeed sailArea
         sheetingDeg downhaul outhaul].
    rewrite clamp_idem by lra. reflexivity.
  - intros H. apply clamp_over; lra.
  - intros H. apply clamp_under; lra.
Qed.

(** C6 at the specification's example, a sheeting angle of 120: the output
    is that of the same input sheeted to 85. *)
Lemma C6_sheeting_120_witness :
  (sheetingDeg oversheeted_input < - 85 \/ 85 < sheetingDeg oversheeted_input)
  /\ compute oversheeted_input
     = compute (with_sheetingDeg oversheeted_input 85).
Proof.
  assert (sheetingDeg oversheeted_input < - 85
          \/ 85 < sheetingDeg oversheeted_input) as Hout.
  { right. cbn [oversheeted_input sheetingDeg]. lra. }
  split; [exact Hout |].
  destruct (C6_sheeting_clamped oversheeted_input Hout) as [Heq [Hover _]].
  rewrite Hover in Heq; [exact Heq |].
  cbn [oversheeted_input sheetingDeg]. lra.
Defined.

(** C7: with true wind 10, board speed 10 and course 180, whatever the sail
    and trim, the apparent wind speed is 0, and so are the lift and drag
    magnitudes. *)
Theorem C7_no_apparent_wind (A s d o : R) :
  let out := compute {| trueWindSpeed := 10; courseAngleDeg := 180;
                        boardSpeed := 10; sailArea := A; sheetingDeg := s;
                        downhaul := d; outhaul := o |} in
  apparentWindSpeed out = 0 /\ liftN out = 0 /\ dragN out = 0.
Proof.
  intros out.
  assert (apparentWindSpeed out = 0) as Hva.
  { unfold out. rewrite Va_compute, Va_x_compute, Va_y_compute.
    cbn [trueWindSpeed courseAngleDeg boardSpeed].
    replace (PI - 180 * DEG) with 0 by (unfold DEG; lra).
    rewrite cos_0, sin_0. unfold vecMag, JsMath.hypot.
    replace ((10 * 1 - 10) * (10 * 1 - 10) + (10 * 0 - 0) * (10 * 0 - 0))
      with 0 by lra.
    apply sqrt_0. }
  split; [exact Hva |]. unfold out in *.
  rewrite liftN_compute, dragN_compute, Hva. split; ring.
Qed.

(** A clamp to a symmetric interval keeps the sign of its argument. *)
Lemma clamp_symmetric_sign (x c : R) :
  0 < c ->
  (0 < x <-> 0 < clamp x (- c) c)
  /\ (x < 0 <-> clamp x (- c) c < 0)
  /\ (x = 0 <-> clamp x (- c) c = 0).
Proof.
  intros Hc. unfold clamp, JsMath.max, JsMath.min.
  unfold Rmin. destruct (Rle_dec c x);
    unfold Rmax; destruct (Rle_dec _ _); repeat split; intros; lra.
Qed.

(** The two clamps of the lift coefficient keep the sign of the angle. *)
Lemma lift_coefficient_sign (a f : R) :
  0 <= f <= 1 ->
  let c := clamp (0.11 * clamp a (- (18 - 5 * f)) (18 - 5 * f))
                 (- (1.2 - 0.4 * f)) (1.2 - 0.4 * f) in
  (0 < a <-> 0 < c) /\ (a < 0 <-> c < 0) /\ (a = 0 <-> c = 0).
Proof.
  intros Hf c. subst c.
  assert (0 < 18 - 5 * f) as Hstall by lra.
  assert (0 < 1.2 - 0.4 * f) as Hmax by lra.
  destruct (clamp_symmetric_sign a _ Hstall) as [Hp1 [Hn1 Hz1]].
  destruct (clamp_symmetric_sign
              (0.11 * clamp a (- (18 - 5 * f)) (18 - 5 * f)) _ Hmax)
    as [Hp2 [Hn2 Hz2]].
  set (lin := clamp a (- (18 - 5 * f)) (18 - 5 * f)) in *.
  set (c := clamp (0.11 * lin) _ _) in *.
  repeat split; intros H.
  - apply Hp2. apply Hp1 in H. lra.
  - apply Hp1. apply Hp2 in H. lra.
  - apply Hn2. apply Hn1 in H. lra.
  - apply Hn1. apply Hn2 in H. lra.
  - apply Hz2. apply Hz1 in H. lra.
  - apply Hz1. apply Hz2 in H. lra.
Qed.

(** C9: on every input [cl] has the sign of [alphaDeg] (and vanishes
    exactly when it does), so the signed lift [sign * liftN] is
    [q * sailArea * |cl|], and the lift vector is that multiple of
    [(-uy, ux)], the apparent-wind unit vector turned by +90 degrees; for a
    sail area that is not negative the multiple is not negative. *)
Theorem C9_lift_along_plus_90 (i : Inputs) :
  let out := compute i in
  let Va := apparentWindSpeed out in
  let q := 0.5 * 1.225 * Va * Va in
  let sign := if Rge_dec (alphaDeg out) 0 then 1 else -1 in
  let ux := Va_x out / (Va + 1e-9) in
  let uy := Va_y out / (Va + 1e-9) in
  (0 < alphaDeg out <-> 0 < cl out)
  /\ (alphaDeg out < 0 <-> cl out < 0)
  /\ (alphaDeg out = 0 <-> cl out = 0)
  /\ sign * liftN out = q * sailArea i * Rabs (cl out)
  /\ L_x out = q * sailArea i * Rabs (cl out) * (- uy)
  /\ L_y out = q * sailArea i * Rabs (cl out) * ux
  /\ (0 <= sailArea i -> 0 <= q * sailArea i * Rabs (cl out)).
Proof.
  cbv zeta.
  pose proof (lift_coefficient_sign (alphaDeg (compute i)) (flatness_of i)
                (flatness_range i)) as Hsign.
  cbv zeta in Hsign.
  change (clamp _ _ _) with (cl (compute i)) in Hsign.
  destruct Hsign as [Hpos [Hneg Hzero]].
  set (Va := apparentWindSpeed (compute i)).
  set (q := 0.5 * 1.225 * Va * Va).
  assert ((if Rge_dec (alphaDeg (compute i)) 0 then 1 else -1)
          * liftN (compute i)
          = q * sailArea i * Rabs (cl (compute i))) as Hlift.
  { rewrite liftN_compute. fold Va. fold q.
    destruct (Rge_dec (alphaDeg (compute i)) 0) as [Hge | Hlt].
    - assert (0 <= cl (compute i)) as Hcl.
      { destruct Hge as [Hgt | Heq]; [left; now apply Hpos |].
        right. symmetry. now apply Hzero. }
      rewrite Rabs_right by lra. ring.
    - assert (cl (compute i) < 0) as Hcl by (apply Hneg; lra).
      rewrite Rabs_left by exact Hcl. ring. }
  split; [exact Hpos |]. split; [exact Hneg |]. split; [exact Hzero |].
  split; [exact Hlift |].
  split; [rewrite L_x_compute; fold Va; rewrite Hlift; reflexivity |].
  split; [rewrite L_y_compute; fold Va; rewrite Hlift; reflexivity |].
  intros HA.
  assert (0 <= Va) as HVa by apply Va_nonneg.
  assert (0 <= q) as Hq by (subst q; nra).
  pose proof (Rabs_pos (cl (compute i))).
  apply Rmult_le_pos; [apply Rmult_le_pos |]; assumption.
Qed.

(** C9 at [aft_quarter_input], whose sail area is 1. *)
Lemma C9_lift_along_plus_90_witness :
  0 <= sailArea aft_quarter_input
  /\ 0 <= 0.5 * 1.225 * apparentWindSpeed (compute aft_quarter_input)
          * apparentWindSpeed (compute aft_quarter_input)
          * sailArea aft_quarter_input * Rabs (cl (compute aft_quarter_input))
  /\ (alphaDeg (compute aft_quarter_input) < 0
      <-> cl (compute aft_quarter_input) < 0).
Proof.
  assert (0 <= sailArea aft_quarter_input) as HA
    by (cbn [aft_quarter_input sailArea]; lra).
  pose proof (C9_lift_along_plus_90 aft_quarter_input) as H.
  cbv zeta in H.
  destruct H as [_ [Hneg [_ [_ [_ [_ Hfactor]]]]]].
  split; [exact HA | split; [exact (Hfactor HA) | exact Hneg]].
Defined.

(* ===================================================================== *)
(** ** The sweep loop                                                     *)
(* ===================================================================== *)

Section SweepLoop.

Import App.

Variable sat : float -> bool.

Lemma sweep_fold (fuel : nat) :
  forall V best,
    halts fuel V = true ->
    sweep sat fuel V best
    = Some (fold_left (keep_if_sat sat) (samples_from fuel V) best).
Proof.
  induction fuel as [| fuel IH]; intros V best Hhalt; simpl in *.
  - discriminate.
  - destruct (V <=? 30)%float; [| reflexivity].
    simpl. now apply IH.
Qed.

Lemma sweep_out_of_fuel (fuel : nat) :
  forall V best, halts fuel V = false -> sweep sat fuel V best = None.
Proof.
  induction fuel as [| fuel IH]; intros V best Hhalt; simpl in *.
  - reflexivity.
  - destruct (V <=? 30)%float; [now apply IH | discriminate].
Qed.

Lemma halts_more (fuel k : nat) :
  forall V, halts fuel V = true -> halts (fuel + k) V = true.
Proof.
  induction fuel as [| fuel IH]; intros V Hhalt; simpl in *.
  - discriminate.
  - destruct (V <=? 30)%float; [now apply IH | reflexivity].
Qed.

Lemma samples_more (fuel k : nat) :
  forall V,
    halts fuel V = true -> samples_from (fuel + k) V = samples_from fuel V.
Proof.
  induction fuel as [| fuel IH]; intros V Hhalt; simpl in *.
  - discriminate.
  - destruct (V <=? 30)%float; [| reflexivity].
    f_equal. now apply IH.
Qed.

(** From [V = 0] the loop condition fails at its 301st evaluation. *)
Lemma sweep_halts : halts 301 0%float = true.
Proof. vm_compute. reflexivity. Qed.

Lemma sweep_needs_301 : halts 300 0%float = false.
Proof. vm_compute. reflexivity. Qed.

Lemma sweep_from_zero (k : nat) (best : float) :
  sweep sat (301 + k) 0%float best
  = Some (fold_left (keep_if_sat sat) sweep_samples best).
Proof.
  rewrite sweep_fold by (apply halts_more, sweep_halts).
  unfold sweep_samples. now rewrite samples_more by apply sweep_halts.
Qed.

Lemma last_nonempty_default (l : list float) :
  forall x d d', last (x :: l) d = last (x :: l) d'.
Proof.
  induction l as [| y l IH]; intros x d d'; [reflexivity |].
  change (last (y :: l) d = last (y :: l) d'). apply IH.
Qed.

Lemma fold_keep_all (l : list float) (best : float) :
  (forall V, In V l -> sat V = true) ->
  fold_left (keep_if_sat sat) l best = last l best.
Proof.
  revert best. induction l as [| V l IH]; intros best Hall; [reflexivity |].
  cbn [fold_left]. unfold keep_if_sat at 2.
  rewrite (Hall V) by now left.
  rewrite IH by (intros W HW; apply Hall; now right).
  destruct l as [| W l]; [reflexivity |].
  change (last (V :: W :: l) best) with (last (W :: l) best).
  apply last_nonempty_default.
Qed.

Lemma fold_keep_none (l : list float) (best : float) :
  (forall V, In V l -> sat V = false) ->
  fold_left (keep_if_sat sat) l best = best.
Proof.
  revert best. induction l as [| V l IH]; intros best Hall; [reflexivity |].
  cbn [fold_left]. unfold keep_if_sat at 2.
  rewrite (Hall V) by now left.
  apply IH. intros W HW. apply Hall. now right.
Qed.

End SweepLoop.

Section SweepSamples.

Import App.

(** The samples, as binary64 numbers. *)

Lemma sweep_samples_length : length sweep_samples = 300%nat.
Proof. vm_compute. reflexivity. Qed.

Lemma sweep_samples_first : hd_error sweep_samples = Some 0%float.
Proof. vm_compute. reflexivity. Qed.

Lemma sweep_samples_last :
  last sweep_samples 0%float = 29.900000000000155%float.
Proof. vm_compute. reflexivity. Qed.

(** The value the counter has when the loop condition fails. *)
Lemma sweep_exit_value :
  (29.900000000000155 + 0.1 = 30.000000000000156)%float
  /\ (30.000000000000156 <=? 30)%float = false.
Proof. split; vm_compute; reflexivity. Qed.

Lemma sweep_samples_finite : forallb is_finite sweep_samples = true.
Proof. vm_compute. reflexivity. Qed.

Lemma sweep_samples_nonneg_bool : forallb is_nonneg sweep_samples = true.
Proof. vm_compute. reflexivity. Qed.

Lemma Prim2SF_zero : Prim2SF 0%float = S754_zero false.
Proof. vm_compute. reflexivity. Qed.

Lemma float_to_R_zero : float_to_R 0%float = 0.
Proof. unfold float_to_R. rewrite Prim2SF_zero. reflexivity. Qed.

Lemma scale_pos (e : Z) :
  0 < (if (0 <=? e)%Z then IZR (2 ^ e) else / IZR (2 ^ (- e))).
Proof.
  destruct (0 <=? e)%Z eqn:He.
  - apply IZR_lt. apply Z.pow_pos_nonneg; lia.
  - apply Rinv_0_lt_compat. apply IZR_lt. apply Z.pow_pos_nonneg; lia.
Qed.

Lemma is_nonneg_sound (f : float) : is_nonneg f = true -> 0 <= float_to_R f.
Proof.
  unfold is_nonneg, float_to_R.
  destruct (Prim2SF f) as [s | s | | s m e]; try discriminate; try lra.
  destruct s; [discriminate |]. intros _.
  pose proof (scale_pos e) as Hs.
  assert (0 < IZR (Zpos m)) as Hm by (apply IZR_lt; lia).
  left. now apply Rmult_lt_0_compat.
Qed.

Lemma sweep_samples_nonneg (V : float) :
  In V sweep_samples -> 0 <= float_to_R V.
Proof.
  intros HV. apply is_nonneg_sound.
  pose proof sweep_samples_nonneg_bool as Hall.
  rewrite forallb_forall in Hall. now apply Hall.
Qed.

Lemma zero_is_sampled : In 0%float sweep_samples.
Proof.
  pose proof sweep_samples_first as H.
  destruct sweep_samples as [| V l]; [discriminate |].
  injection H as ->. now left.
Qed.

Lemma Prim2SF_last_sample :
  Prim2SF 29.900000000000155%float
  = S754_finite false 8416101803648658 (- 48).
Proof. vm_compute. reflexivity. Qed.

Lemma pow2_48 : (2 ^ 48 = 281474976710656)%Z.
Proof. reflexivity. Qed.

(** The last sample falls short of 30 by roughly a tenth. *)
Lemma last_sample_value :
  29.9 < float_to_R 29.900000000000155%float < 29.91.
Proof.
  unfold float_to_R. rewrite Prim2SF_last_sample.
  change (0 <=? - 48)%Z with false. cbv iota.
  change (- - 48)%Z with 48%Z. rewrite pow2_48. lra.
Qed.

End SweepSamples.

(* ===================================================================== *)
(** ** Running dead downwind                                              *)
(* ===================================================================== *)

Section Downwind.

Variable v : R.
Hypothesis v_nonneg : 0 <= v.

Let out : Outputs := compute (with_boardSpeed downwind_input v).

Lemma downwind_Va_x : Va_x out = - 10 - v.
Proof.
  unfold out. rewrite Va_x_compute.
  cbn [with_boardSpeed downwind_input trueWindSpeed courseAngleDeg boardSpeed].
  replace (PI - 0 * DEG) with PI by (unfold DEG; lra).
  rewrite cos_PI. lra.
Qed.

Lemma downwind_Va_y : Va_y out = 0.
Proof.
  unfold out. rewrite Va_y_compute.
  cbn [with_boardSpeed downwind_input trueWindSpeed courseAngleDeg].
  replace (PI - 0 * DEG) with PI by (unfold DEG; lra).
  rewrite sin_PI. lra.
Qed.

Lemma downwind_Va_pos : 0 < apparentWindSpeed out.
Proof.
  unfold out. rewrite Va_compute. fold out.
  rewrite downwind_Va_x, downwind_Va_y.
  unfold vecMag, JsMath.hypot. apply sqrt_lt_R0. nra.
Qed.

Lemma cd_pos (i : Inputs) : 0 < cd (compute i).
Proof.
  rewrite cd_compute. pose proof (flatness_range i).
  assert (0 <= cl (compute i) * cl (compute i)) by nra. nra.
Qed.

Lemma downwind_dragN_pos : 0 < dragN out.
Proof.
  unfold out. rewrite dragN_compute. fold out.
  cbn [with_boardSpeed downwind_input sailArea].
  pose proof downwind_Va_pos as HVa.
  pose proof (cd_pos (with_boardSpeed downwind_input v)) as Hcd. fold out in Hcd.
  assert (0 < apparentWindSpeed out * apparentWindSpeed out) by nra.
  assert (0 < apparentWindSpeed out * apparentWindSpeed out * cd out) by nra.
  nra.
Qed.

(** Running downwind the whole aerodynamic force is drag, and the record's
    [driveN] is positive. *)
Lemma downwind_driveN_pos : 0 < driveN out.
Proof.
  unfold out. rewrite driveN_compute, F_x_compute, L_x_compute, D_x_compute.
  fold out. rewrite downwind_Va_x, downwind_Va_y.
  pose proof downwind_Va_pos as HVa. pose proof downwind_dragN_pos as Hd.
  assert (0 < / (apparentWindSpeed out + 1e-9)) as Hinv
    by (apply Rinv_0_lt_compat; lra).
  unfold Rdiv. rewrite Rmult_0_l, Ropp_0, Rmult_0_r, Rplus_0_l.
  assert (0 < (10 + v) * / (apparentWindSpeed out + 1e-9)) by nra.
  nra.
Qed.

End Downwind.

(* ===================================================================== *)
(** ** Claims about the top-speed sweep                                   *)
(* ===================================================================== *)

(** What [topSpeed] returns once the loop has been given the 301
    evaluations of its condition that it needs. *)
Lemma topSpeed_from_zero (i : Inputs) (c0 c2 : R) (k : nat) :
  let best :=
    fold_left (App.keep_if_sat (App.sat_at i c0 c2)) App.sweep_samples 0%float in
  App.topSpeed (301 + k) i c0 c2
  = Some {| App.mps := best;
            App.kn := App.float_to_R best * 1.943844;
            App.driveN :=
              - driveN (compute (with_boardSpeed i (App.float_to_R best)));
            App.waterDragN :=
              c0 + c2 * App.float_to_R best * App.float_to_R best |}.
Proof.
  intros best. unfold App.topSpeed.
  rewrite sweep_from_zero. reflexivity.
Qed.

Lemma sat_at_false (i : Inputs) (c0 c2 : R) (V : float) :
  App.drive_at i V < App.waterDrag_at c0 c2 V -> App.sat_at i c0 c2 V = false.
Proof.
  intros Hlt. unfold App.sat_at. cbv zeta.
  destruct (Rge_dec _ _); [lra | reflexivity].
Qed.

Lemma sat_at_no_drag (i : Inputs) (V : float) : App.sat_at i 0 0 V = true.
Proof.
  unfold App.sat_at. cbv zeta.
  destruct (Rge_dec _ _) as [Hge | Hlt]; [reflexivity |].
  exfalso. apply Hlt. unfold App.drive_at, App.waterDrag_at. cbv zeta.
  pose proof (Rmax_l 0 (- driveN (compute (with_boardSpeed i (App.float_to_R V))))).
  unfold JsMath.max. lra.
Qed.

Lemma drive_at_bounds_raw (i : Inputs) (V : float) :
  - driveN (compute (with_boardSpeed i (App.float_to_R V))) <= App.drive_at i V.
Proof. unfold App.drive_at, JsMath.max. cbv zeta. apply Rmax_r. Qed.

(** C2 (as amended): when at every sampled speed the drive
    [max(0, -driveN)] is below the water drag, the result has speed 0 and
    water drag [waterC0]; its drive force is [-driveN] of [compute] at board
    speed 0, a value below [waterC0]. *)
Theorem C2_nothing_sustained (i : Inputs) (c0 c2 : R) (k : nat) :
  (forall V, In V App.sweep_samples ->
             App.drive_at i V < App.waterDrag_at c0 c2 V) ->
  exists r,
    App.topSpeed (301 + k) i c0 c2 = Some r
    /\ App.mps r = 0%float
    /\ App.waterDragN r = c0
    /\ App.driveN r = - driveN (compute (with_boardSpeed i 0))
    /\ App.driveN r < c0.
Proof.
  intros Hall.
  pose proof (topSpeed_from_zero i c0 c2 k) as Htop. cbv zeta in Htop.
  rewrite fold_keep_none in Htop
    by (intros V HV; apply sat_at_false; now apply Hall).
  rewrite float_to_R_zero in Htop.
  eexists. split; [exact Htop |]. cbn [App.mps App.waterDragN App.driveN].
  repeat split; [ring |].
  pose proof (Hall _ zero_is_sampled) as H0.
  pose proof (drive_at_bounds_raw i 0%float) as Hraw.
  unfold App.waterDrag_at in H0. rewrite float_to_R_zero in H0, Hraw. lra.
Qed.

Lemma downwind_never_sustained (V : float) :
  In V App.sweep_samples ->
  App.drive_at downwind_input V < App.waterDrag_at 30 1.2 V.
Proof.
  intros HV. pose proof (sweep_samples_nonneg V HV) as Hv.
  pose proof (downwind_driveN_pos (App.float_to_R V) Hv) as Hpos.
  cbv zeta in Hpos.
  unfold App.drive_at, App.waterDrag_at, JsMath.max. cbv zeta.
  rewrite Rmax_left by lra.
  assert (0 <= App.float_to_R V * App.float_to_R V) by nra. lra.
Qed.

(** C2 (as amended) dead downwind with the App's water drag coefficients:
    there no sample sustains its speed. *)
Lemma C2_nothing_sustained_witness :
  (forall V, In V App.sweep_samples ->
             App.drive_at downwind_input V < App.waterDrag_at 30 1.2 V)
  /\ exists r,
       App.topSpeed 301 downwind_input 30 1.2 = Some r
       /\ App.mps r = 0%float
       /\ App.waterDragN r = 30
       /\ App.driveN r = - driveN (compute (with_boardSpeed downwind_input 0))
       /\ App.driveN r < 30.
Proof.
  split; [exact downwind_never_sustained |].
  exact (C2_nothing_sustained downwind_input 30 1.2 0 downwind_never_sustained).
Defined.

(** C2 (counterexample): running dead downwind with the App's water drag
    coefficients (30 and 1.2) no sample sustains its speed, the result speed
    is 0, and the drive force returned is negative, not 0. *)
Lemma C2_drive_not_zero :
  (forall V, In V App.sweep_samples ->
             App.drive_at downwind_input V < App.waterDrag_at 30 1.2 V)
  /\ exists r,
       App.topSpeed 301 downwind_input 30 1.2 = Some r
       /\ App.mps r = 0%float
       /\ App.driveN r < 0
       /\ App.driveN r <> 0.
Proof.
  split; [exact downwind_never_sustained |].
  pose proof (topSpeed_from_zero downwind_input 30 1.2 0) as Htop.
  cbv zeta in Htop.
  rewrite fold_keep_none in Htop
    by (intros V HV; apply sat_at_false; now apply downwind_never_sustained).
  rewrite float_to_R_zero in Htop.
  eexists. split; [exact Htop |]. cbn [App.mps App.driveN].
  pose proof (downwind_driveN_pos 0 (Rle_refl 0)) as Hpos. cbv zeta in Hpos.
  repeat split; lra.
Qed.

(** C4 (the code at the claim's inputs): with [waterC0 = 0] and
    [waterC2 = 0] every sample passes the test, so the result is the last
    sample.  The counter is a binary64 number: after 300 additions of 0.1
    it is 30.000000000000156, the condition [V <= 30] fails, and the last
    of the 300 samples is 29.900000000000155, not 30. *)
Theorem C4_no_drag_stops_at_last_sample (i : Inputs) (k : nat) :
  exists r,
    App.topSpeed (301 + k) i 0 0 = Some r
    /\ (forall V, App.drive_at i V >= App.waterDrag_at 0 0 V)
    /\ App.mps r = last App.sweep_samples 0%float
    /\ App.mps r = 29.900000000000155%float
    /\ App.float_to_R (App.mps r) < 29.91
    /\ length App.sweep_samples = 300%nat.
Proof.
  pose proof (topSpeed_from_zero i 0 0 k) as Htop. cbv zeta in Htop.
  rewrite fold_keep_all in Htop by (intros V _; apply sat_at_no_drag).
  eexists. split; [exact Htop |]. cbn [App.mps].
  split.
  { intros V. pose proof (sat_at_no_drag i V) as Hsat.
    unfold App.sat_at in Hsat. cbv zeta in Hsat.
    destruct (Rge_dec _ _); [assumption | discriminate]. }
  split; [reflexivity |].
  rewrite sweep_samples_last.
  split; [reflexivity |].
  split; [apply last_sample_value | apply sweep_samples_length].
Qed.

(** C10: the drive force of the result is [-driveN] of [compute] at the
    result speed, with no clamp at 0; whenever no sample passes the test
    and [driveN] at board speed 0 is positive it is negative, and there are
    such inputs (dead downwind with the App's water drag coefficients). *)
Theorem C10_returned_drive_is_raw :
  (forall (i : Inputs) (c0 c2 : R) (k : nat),
      exists r,
        App.topSpeed (301 + k) i c0 c2 = Some r
        /\ App.driveN r
           = - driveN (compute (with_boardSpeed i (App.float_to_R (App.mps r))))
        /\ ((forall V, In V App.sweep_samples ->
                       App.drive_at i V < App.waterDrag_at c0 c2 V) ->
            0 < driveN (compute (with_boardSpeed i 0)) ->
            App.driveN r < 0 /\ App.driveN r < App.drive_at i (App.mps r)))
  /\ (exists (i : Inputs) (c0 c2 : R) (r : App.TopSpeedResult),
        (forall V, In V App.sweep_samples ->
                   App.drive_at i V < App.waterDrag_at c0 c2 V)
        /\ 0 < driveN (compute (with_boardSpeed i 0))
        /\ App.topSpeed 301 i c0 c2 = Some r
        /\ App.driveN r < 0).
Proof.
  assert (forall (i : Inputs) (c0 c2 : R) (k : nat),
      exists r,
        App.topSpeed (301 + k) i c0 c2 = Some r
        /\ App.driveN r
           = - driveN (compute (with_boardSpeed i (App.float_to_R (App.mps r))))
        /\ ((forall V, In V App.sweep_samples ->
                       App.drive_at i V < App.waterDrag_at c0 c2 V) ->
            0 < driveN (compute (with_boardSpeed i 0)) ->
            App.driveN r < 0 /\ App.driveN r < App.drive_at i (App.mps r)))
    as Hraw.
  { intros i c0 c2 k.
    pose proof (topSpeed_from_zero i c0 c2 k) as Htop. cbv zeta in Htop.
    eexists. split; [exact Htop |]. cbn [App.mps App.driveN].
    split; [reflexivity |].
    intros Hall Hpos.
    rewrite fold_keep_none
      by (intros V HV; apply sat_at_false; now apply Hall).
    rewrite float_to_R_zero.
    assert (0 <= App.drive_at i 0%float) as Hclamp.
    { unfold App.drive_at, JsMath.max. cbv zeta. apply Rmax_l. }
    split; lra. }
  split; [exact Hraw |].
  exists downwind_input, 30, 1.2.
  destruct (Hraw downwind_input 30 1.2 0%nat) as [r [Htop [_ Hneg]]].
  exists r.
  pose proof (downwind_driveN_pos 0 (Rle_refl 0)) as Hpos. cbv zeta in Hpos.
  split; [exact downwind_never_sustained |].
  split; [exact Hpos |].
  split; [exact Htop |].
  now destruct (Hneg downwind_never_sustained Hpos).
Qed.

(* ===================================================================== *)
(** ** More about [compute]: coefficients, directions, symmetries         *)
(* ===================================================================== *)

(** The same input on another course, and with another sail. *)
Definition with_courseAngleDeg (inputs : Inputs) (c : R) : Inputs :=
  {| trueWindSpeed := trueWindSpeed inputs;
     courseAngleDeg := c;
     boardSpeed := boardSpeed inputs;
     sailArea := sailArea inputs;
     sheetingDeg := sheetingDeg inputs;
     downhaul := downhaul inputs;
     outhaul := outhaul inputs |}.

Definition with_sailArea (inputs : Inputs) (A : R) : Inputs :=
  {| trueWindSpeed := trueWindSpeed inputs;
     courseAngleDeg := courseAngleDeg inputs;
     boardSpeed := boardSpeed inputs;
     sailArea := A;
     sheetingDeg := sheetingDeg inputs;
     downhaul := downhaul inputs;
     outhaul := outhaul inputs |}.

(** The apparent-wind unit vector of [compute], with its epsilon. *)
Definition unit_x (out : Outputs) : R :=
  Va_x out / (apparentWindSpeed out + 1e-9).
Definition unit_y (out : Outputs) : R :=
  Va_y out / (apparentWindSpeed out + 1e-9).

Section ComputeMore.

Variable inputs : Inputs.

Let out : Outputs := compute inputs.

Lemma D_y_compute : D_y out = - dragN out * unit_y out.
Proof. reflexivity. Qed.

Lemma D_x_unit : D_x out = - dragN out * unit_x out.
Proof. reflexivity. Qed.

Lemma F_y_compute : F_y out = L_y out + D_y out.
Proof. reflexivity. Qed.

Lemma Va_squared :
  apparentWindSpeed out * apparentWindSpeed out
  = Va_x out * Va_x out + Va_y out * Va_y out.
Proof.
  unfold out. rewrite Va_compute. unfold vecMag, JsMath.hypot.
  apply sqrt_sqrt. nra.
Qed.

Lemma unit_norm :
  unit_x out * unit_x out + unit_y out * unit_y out
  = (apparentWindSpeed out / (apparentWindSpeed out + 1e-9))
    * (apparentWindSpeed out / (apparentWindSpeed out + 1e-9)).
Proof.
  pose proof Va_squared as Hsq.
  unfold unit_x, unit_y.
  set (s := apparentWindSpeed out + 1e-9).
  transitivity ((Va_x out * Va_x out + Va_y out * Va_y out) * (/ s * / s));
    [unfold Rdiv; ring |].
  rewrite <- Hsq. unfold Rdiv. ring.
Qed.

End ComputeMore.

Lemma cl_range (i : Inputs) :
  - (1.2 - 0.4 * flatness_of i) <= cl (compute i) <= 1.2 - 0.4 * flatness_of i.
Proof.
  pose proof (flatness_range i) as Hf. rewrite cl_compute.
  split; [apply clamp_lower | apply clamp_upper; lra].
Qed.

(** X1: the drag coefficient is at least its baseline [cd0] and at most
    [cd0 + 0.06 * clMax^2]; whatever the trim it stays between 0.06 and
    0.1664. *)
Theorem X1_cd_bounds (i : Inputs) :
  let cd0 := 0.08 - 0.02 * flatness_of i in
  let clMax := 1.2 - 0.4 * flatness_of i in
  cd0 <= cd (compute i) <= cd0 + 0.06 * clMax * clMax
  /\ 0.06 <= cd (compute i) <= 0.1664.
Proof.
  cbv zeta. pose proof (flatness_range i) as Hf.
  pose proof (cl_range i) as Hcl. rewrite cd_compute.
  set (f := flatness_of i) in *. set (c := cl (compute i)) in *.
  assert (0 <= c * c) as Hsq by nra.
  assert (c * c <= (1.2 - 0.4 * f) * (1.2 - 0.4 * f)) as Hup by nra.
  repeat split; nra.
Qed.

(** Inside the second clamp the first one is not seen: the lift slope at
    the stall angle is already above the ceiling. *)
Lemma clamp_of_clamped_slope (a s c : R) :
  0 < c -> c <= 0.11 * s ->
  clamp (0.11 * clamp a (- s) s) (- c) c = clamp (0.11 * a) (- c) c.
Proof.
  intros Hc Hs.
  destruct (Rle_dec a (- s)) as [Hlo | Hlo].
  - rewrite (clamp_under a) by lra.
    rewrite !clamp_under; lra.
  - destruct (Rle_dec s a) as [Hhi | Hhi].
    + rewrite (clamp_over a) by lra.
      rewrite !clamp_over; lra.
    + rewrite (clamp_inside a) by lra. reflexivity.
Qed.

(** X2: the stall clamp never shows in the result: [0.11 * stallDeg] is
    above [clMax] at every trim, so [cl] is [0.11 * alphaDeg] clamped to
    [-clMax, clMax], and the lift coefficient sits on its ceiling from
    [alphaDeg = clMax / 0.11] on, before the stall angle is reached. *)
Theorem X2_stall_clamp_is_hidden (i : Inputs) :
  let stallDeg := 18 - 5 * flatness_of i in
  let clMax := 1.2 - 0.4 * flatness_of i in
  clMax < 0.11 * stallDeg
  /\ cl (compute i) = clamp (0.11 * alphaDeg (compute i)) (- clMax) clMax
  /\ (clMax <= 0.11 * alphaDeg (compute i) <-> cl (compute i) = clMax)
  /\ (0.11 * alphaDeg (compute i) <= - clMax <-> cl (compute i) = - clMax).
Proof.
  cbv zeta. pose proof (flatness_range i) as Hf.
  set (f := flatness_of i) in *.
  assert (1.2 - 0.4 * f < 0.11 * (18 - 5 * f)) as Hstall by lra.
  assert (cl (compute i)
          = clamp (0.11 * alphaDeg (compute i))
                  (- (1.2 - 0.4 * f)) (1.2 - 0.4 * f)) as Hcl.
  { rewrite cl_compute. fold f. apply clamp_of_clamped_slope; lra. }
  split; [exact Hstall |]. split; [exact Hcl |].
  rewrite Hcl. set (x := 0.11 * alphaDeg (compute i)).
  split; split; intros H.
  - apply clamp_over; lra.
  - destruct (Rle_dec (1.2 - 0.4 * f) x) as [Hx | Hx]; [exact Hx |].
    exfalso. destruct (Rle_dec x (- (1.2 - 0.4 * f))) as [Hy | Hy].
    + rewrite clamp_under in H; lra.
    + rewrite clamp_inside in H; lra.
  - apply clamp_under; lra.
  - destruct (Rle_dec x (- (1.2 - 0.4 * f))) as [Hx | Hx]; [exact Hx |].
    exfalso. destruct (Rle_dec (1.2 - 0.4 * f) x) as [Hy | Hy].
    + rewrite clamp_over in H; lra.
    + rewrite clamp_inside in H; lra.
Qed.

(** X3: the lift vector is perpendicular to the apparent wind vector and
    the drag vector is parallel to it, on every input. *)
Theorem X3_lift_perpendicular_drag_parallel (i : Inputs) :
  L_x (compute i) * Va_x (compute i) + L_y (compute i) * Va_y (compute i) = 0
  /\ D_x (compute i) * Va_y (compute i) - D_y (compute i) * Va_x (compute i)
     = 0.
Proof.
  rewrite L_x_compute, L_y_compute, D_x_unit, D_y_compute.
  unfold unit_x, unit_y, Rdiv. split; ring.
Qed.

Lemma dragN_nonneg (i : Inputs) : 0 <= sailArea i -> 0 <= dragN (compute i).
Proof.
  intros HA. rewrite dragN_compute.
  pose proof (cd_pos i) as Hcd.
  assert (0 <= apparentWindSpeed (compute i) * apparentWindSpeed (compute i))
    as Hsq by nra.
  assert (0 <= apparentWindSpeed (compute i) * apparentWindSpeed (compute i)
               * sailArea i) as H1 by (apply Rmult_le_pos; assumption).
  assert (0 <= apparentWindSpeed (compute i) * apparentWindSpeed (compute i)
               * sailArea i * cd (compute i)) as H2
    by (apply Rmult_le_pos; [assumption | lra]).
  lra.
Qed.

(** X4: for a sail area that is not negative the drag magnitude is not
    negative, and the drag vector points against the apparent wind vector:
    their scalar product is [- dragN * Va^2 / (Va + 1e-9)], never
    positive. *)
Theorem X4_drag_against_apparent_wind (i : Inputs) :
  0 <= sailArea i ->
  0 <= dragN (compute i)
  /\ D_x (compute i) * Va_x (compute i) + D_y (compute i) * Va_y (compute i)
     = - dragN (compute i)
       * (apparentWindSpeed (compute i) * apparentWindSpeed (compute i)
          / (apparentWindSpeed (compute i) + 1e-9))
  /\ D_x (compute i) * Va_x (compute i) + D_y (compute i) * Va_y (compute i)
     <= 0.
Proof.
  intros HA. pose proof (dragN_nonneg i HA) as Hd.
  pose proof (Va_nonneg i) as HVa. pose proof (Va_squared i) as Hsq.
  cbv zeta in Hsq.
  assert (D_x (compute i) * Va_x (compute i)
          + D_y (compute i) * Va_y (compute i)
          = - dragN (compute i)
            * (apparentWindSpeed (compute i) * apparentWindSpeed (compute i)
               / (apparentWindSpeed (compute i) + 1e-9))) as Hdot.
  { rewrite Hsq, D_x_unit, D_y_compute. unfold unit_x, unit_y, Rdiv. ring. }
  split; [exact Hd |]. split; [exact Hdot |]. rewrite Hdot.
  assert (0 < / (apparentWindSpeed (compute i) + 1e-9)) as Hinv
    by (apply Rinv_0_lt_compat; lra).
  assert (0 <= apparentWindSpeed (compute i) * apparentWindSpeed (compute i)
               / (apparentWindSpeed (compute i) + 1e-9)) as Hq.
  { unfold Rdiv. apply Rmult_le_pos; [nra | lra]. }
  nra.
Qed.

(** X4 at [oversheeted_input], whose sail area is 6.5. *)
Lemma X4_drag_against_apparent_wind_witness :
  0 <= sailArea oversheeted_input
  /\ 0 <= dragN (compute oversheeted_input)
  /\ D_x (compute oversheeted_input) * Va_x (compute oversheeted_input)
     + D_y (compute oversheeted_input) * Va_y (compute oversheeted_input)
     <= 0.
Proof.
  assert (0 <= sailArea oversheeted_input) as HA
    by (cbn [oversheeted_input sailArea]; lra).
  destruct (X4_drag_against_apparent_wind oversheeted_input HA)
    as [Hd [_ Hdot]].
  split; [exact HA | split; [exact Hd | exact Hdot]].
Defined.

(** X5: the resultant force has squared length
    [(liftN^2 + dragN^2) * (Va / (Va + 1e-9))^2]: lift and drag add at a
    right angle, the sign choice of the lift plays no part, and the epsilon
    only shortens the vector, so [|F|^2 <= liftN^2 + dragN^2]. *)
Theorem X5_resultant_magnitude (i : Inputs) :
  let out := compute i in
  let shrink := apparentWindSpeed out / (apparentWindSpeed out + 1e-9) in
  F_x out * F_x out + F_y out * F_y out
  = (liftN out * liftN out + dragN out * dragN out) * (shrink * shrink)
  /\ 0 <= shrink < 1
  /\ F_x out * F_x out + F_y out * F_y out
     <= liftN out * liftN out + dragN out * dragN out.
Proof.
  cbv zeta. pose proof (Va_nonneg i) as HVa.
  pose proof (unit_norm i) as Hu. cbv zeta in Hu.
  set (out := compute i) in *.
  set (shrink := apparentWindSpeed out / (apparentWindSpeed out + 1e-9)) in *.
  assert (F_x out * F_x out + F_y out * F_y out
          = (liftN out * liftN out + dragN out * dragN out)
            * (shrink * shrink)) as Heq.
  { rewrite <- Hu. unfold out.
    rewrite F_x_compute, F_y_compute, L_x_compute, L_y_compute,
      D_x_unit, D_y_compute.
    fold out. fold (unit_x out). fold (unit_y out).
    destruct (Rge_dec (alphaDeg out) 0); ring. }
  assert (0 <= shrink < 1) as Hs.
  { assert (0 < / (apparentWindSpeed out + 1e-9)) as Hinv
      by (apply Rinv_0_lt_compat; lra).
    unfold shrink, Rdiv. split; [apply Rmult_le_pos; lra |].
    apply (Rmult_lt_reg_r (apparentWindSpeed out + 1e-9)); [lra |].
    rewrite Rmult_assoc, Rinv_l by lra. lra. }
  split; [exact Heq |]. split; [exact Hs |]. rewrite Heq.
  assert (0 <= liftN out * liftN out + dragN out * dragN out) by nra.
  assert (shrink * shrink <= 1) by nra. nra.
Qed.

Lemma cos_minus_turn (x : R) : cos (x - 2 * PI) = cos x.
Proof. rewrite cos_minus, cos_2PI, sin_2PI. ring. Qed.

Lemma sin_minus_turn (x : R) : sin (x - 2 * PI) = sin x.
Proof. rewrite sin_minus, cos_2PI, sin_2PI. ring. Qed.

(** X6: over the reals [compute] has period 360 in the course angle: a
    course of [c + 360] gives the very same output record as [c]. *)
Theorem X6_course_period_360 (i : Inputs) :
  compute (with_courseAngleDeg i (courseAngleDeg i + 360)) = compute i.
Proof.
  unfold compute.
  cbn [with_courseAngleDeg trueWindSpeed courseAngleDeg boardSpeed sailArea
       sheetingDeg downhaul outhaul].
  replace (PI - (courseAngleDeg i + 360) * DEG)
    with (PI - courseAngleDeg i * DEG - 2 * PI) by (unfold DEG; lra).
  rewrite cos_minus_turn, sin_minus_turn. reflexivity.
Qed.

(** X7: the forces are linear in the sail area.  With the area multiplied
    by [k] the apparent wind, the angle of attack and both coefficients are
    unchanged, and the lift and drag magnitudes, the resultant, [driveN],
    [sideN] and [powerW] are all multiplied by [k]; with no sail there is
    no force. *)
Theorem X7_forces_linear_in_sail_area (i : Inputs) (k : R) :
  let out := compute i in
  let out' := compute (with_sailArea i (k * sailArea i)) in
  apparentWindSpeed out' = apparentWindSpeed out
  /\ alphaDeg out' = alphaDeg out
  /\ cl out' = cl out /\ cd out' = cd out
  /\ liftN out' = k * liftN out /\ dragN out' = k * dragN out
  /\ driveN out' = k * driveN out /\ sideN out' = k * sideN out
  /\ powerW out' = k * powerW out
  /\ driveN (compute (with_sailArea i 0)) = 0
  /\ sideN (compute (with_sailArea i 0)) = 0.
Proof.
  cbv zeta.
  assert (driveN (compute (with_sailArea i (k * sailArea i)))
          = k * driveN (compute i)) as Hdrive.
  { unfold compute.
    cbn [with_sailArea trueWindSpeed courseAngleDeg boardSpeed sailArea
         sheetingDeg downhaul outhaul driveN].
    unfold Rdiv. ring. }
  assert (sideN (compute (with_sailArea i (k * sailArea i)))
          = k * sideN (compute i)) as Hside.
  { unfold compute.
    cbn [with_sailArea trueWindSpeed courseAngleDeg boardSpeed sailArea
         sheetingDeg downhaul outhaul sideN].
    unfold Rdiv. ring. }
  repeat split; try reflexivity; try exact Hdrive; try exact Hside.
  - unfold compute.
    cbn [with_sailArea trueWindSpeed courseAngleDeg boardSpeed sailArea
         sheetingDeg downhaul outhaul liftN]. ring.
  - unfold compute.
    cbn [with_sailArea trueWindSpeed courseAngleDeg boardSpeed sailArea
         sheetingDeg downhaul outhaul dragN]. ring.
  - unfold compute.
    cbn [with_sailArea trueWindSpeed courseAngleDeg boardSpeed sailArea
         sheetingDeg downhaul outhaul powerW driveN].
    unfold Rdiv. ring.
  - unfold compute.
    cbn [with_sailArea trueWindSpeed courseAngleDeg boardSpeed sailArea
         sheetingDeg downhaul outhaul driveN].
    unfold Rdiv. ring.
  - unfold compute.
    cbn [with_sailArea trueWindSpeed courseAngleDeg boardSpeed sailArea
         sheetingDeg downhaul outhaul sideN].
    unfold Rdiv. ring.
Qed.

Lemma cos_supplement (x : R) : cos (PI - x) = - cos x.
Proof. rewrite cos_minus, cos_PI, sin_PI. ring. Qed.

Lemma apparent_wind_cosine_rule (i : Inputs) :
  apparentWindSpeed (compute i) * apparentWindSpeed (compute i)
  = trueWindSpeed i * trueWindSpeed i + boardSpeed i * boardSpeed i
    + 2 * trueWindSpeed i * boardSpeed i * cos (courseAngleDeg i * DEG).
Proof.
  pose proof (Va_squared i) as Hsq. cbv zeta in Hsq. rewrite Hsq.
  rewrite Va_x_compute, Va_y_compute, cos_supplement, sin_PI_x.
  pose proof (sin2_cos2 (courseAngleDeg i * DEG)) as Hone.
  unfold Rsqr in Hone.
  set (c := cos (courseAngleDeg i * DEG)) in *.
  set (s := sin (courseAngleDeg i * DEG)) in *.
  replace ((trueWindSpeed i * - c - boardSpeed i)
           * (trueWindSpeed i * - c - boardSpeed i)
           + (trueWindSpeed i * s - 0) * (trueWindSpeed i * s - 0))
    with (trueWindSpeed i * trueWindSpeed i * (s * s + c * c)
          + boardSpeed i * boardSpeed i
          + 2 * trueWindSpeed i * boardSpeed i * c) by ring.
  rewrite Hone. ring.
Qed.

(** X8: on every input the apparent wind speed obeys the cosine rule,
    [Va^2 = tw^2 + V^2 + 2 tw V cos(course)]; for a true wind speed and a
    board speed that are not negative it therefore lies between their
    difference and their sum. *)
Theorem X8_apparent_wind_triangle (i : Inputs) :
  apparentWindSpeed (compute i) * apparentWindSpeed (compute i)
  = trueWindSpeed i * trueWindSpeed i + boardSpeed i * boardSpeed i
    + 2 * trueWindSpeed i * boardSpeed i * cos (courseAngleDeg i * DEG)
  /\ (0 <= trueWindSpeed i -> 0 <= boardSpeed i ->
      Rabs (trueWindSpeed i - boardSpeed i) <= apparentWindSpeed (compute i)
      /\ apparentWindSpeed (compute i) <= trueWindSpeed i + boardSpeed i).
Proof.
  pose proof (apparent_wind_cosine_rule i) as Hrule.
  pose proof (Va_nonneg i) as HVa.
  pose proof (COS_bound (courseAngleDeg i * DEG)) as [Hlo Hhi].
  split; [exact Hrule |]. intros Htw Hbs.
  set (Va := apparentWindSpeed (compute i)) in *.
  set (c := cos (courseAngleDeg i * DEG)) in *.
  set (tw := trueWindSpeed i) in *. set (bs := boardSpeed i) in *.
  assert (0 <= tw * bs) as Hprod by (apply Rmult_le_pos; assumption).
  assert (Va * Va <= (tw + bs) * (tw + bs)) as Hupper by nra.
  assert ((tw - bs) * (tw - bs) <= Va * Va) as Hlower by nra.
  split.
  - apply Rabs_le. split; nra.
  - nra.
Qed.

(** X8 at [oversheeted_input]: true wind 10, board speed 8. *)
Lemma X8_apparent_wind_triangle_witness :
  0 <= trueWindSpeed oversheeted_input
  /\ 0 <= boardSpeed oversheeted_input
  /\ Rabs (trueWindSpeed oversheeted_input - boardSpeed oversheeted_input)
     <= apparentWindSpeed (compute oversheeted_input)
  /\ apparentWindSpeed (compute oversheeted_input)
     <= trueWindSpeed oversheeted_input + boardSpeed oversheeted_input.
Proof.
  assert (0 <= trueWindSpeed oversheeted_input) as Htw
    by (cbn [oversheeted_input trueWindSpeed]; lra).
  assert (0 <= boardSpeed oversheeted_input) as Hbs
    by (cbn [oversheeted_input boardSpeed]; lra).
  destruct (X8_apparent_wind_triangle oversheeted_input) as [_ Hbounds].
  destruct (Hbounds Htw Hbs) as [Hlo Hhi].
  repeat split; assumption.
Defined.

(** [Math.atan2] of a point in the closed upper half plane. *)
Lemma atan2_upper_half (y x : R) : 0 <= y -> 0 <= JsMath.atan2 y x <= PI.
Proof.
  intros Hy. pose proof PI_RGT_0 as Hpi.
  pose proof (atan2_range y x) as [_ Hup]. split; [| exact Hup].
  unfold JsMath.atan2.
  destruct (Rlt_dec 0 x) as [Hx | Hx].
  - assert (0 <= y / x) as Hq.
    { assert (0 < / x) by now apply Rinv_0_lt_compat.
      unfold Rdiv. apply Rmult_le_pos; lra. }
    destruct Hq as [Hq | Hq].
    + pose proof (atan_increasing _ _ Hq) as Hinc.
      rewrite atan_0 in Hinc. lra.
    + rewrite <- Hq, atan_0. lra.
  - destruct (Rlt_dec x 0) as [Hx' | Hx'].
    + destruct (Rle_dec 0 y) as [_ | Hy']; [| lra].
      pose proof (atan_bound (y / x)). lra.
    + destruct (Rlt_dec 0 y); [lra |].
      destruct (Rlt_dec y 0); lra.
Qed.

(** X9: inside the App's slider ranges (true wind speed not negative,
    course between 0 and 180) the apparent wind never comes from port:
    [Va_y >= 0] and the apparent wind angle is in [0, 180].  There the
    angle of attack is above -180, so on these inputs [alphaDeg] is in the
    half-open interval (-180, 180]. *)
Theorem X9_slider_course_keeps_alpha_above_minus_180 (i : Inputs) :
  0 <= trueWindSpeed i -> 0 <= courseAngleDeg i <= 180 ->
  0 <= Va_y (compute i)
  /\ 0 <= apparentWindAngleDeg (compute i) <= 180
  /\ - 180 < alphaDeg (compute i) <= 180.
Proof.
  intros Htw [Hc0 Hc180]. pose proof PI_RGT_0 as Hpi.
  assert (0 <= Va_y (compute i)) as Hy.
  { rewrite Va_y_compute.
    assert (0 <= sin (PI - courseAngleDeg i * DEG)) as Hsin.
    { assert (0 <= courseAngleDeg i * DEG <= PI) as [H0 H1]
        by (unfold DEG; split; nra).
      apply sin_ge_0; lra. }
    assert (0 <= trueWindSpeed i * sin (PI - courseAngleDeg i * DEG))
      by (apply Rmult_le_pos; assumption).
    lra. }
  assert (0 <= apparentWindAngleDeg (compute i) <= 180) as Hawa.
  { rewrite awaDeg_compute. unfold angleDegFromXY, RAD.
    pose proof (atan2_upper_half _ (Va_x (compute i)) Hy) as [Hlo Hhi].
    assert (0 < / PI) as Hinv by now apply Rinv_0_lt_compat.
    assert (PI * / PI = 1) as Hone by (apply Rinv_r; lra).
    unfold Rdiv. split; nra. }
  split; [exact Hy |]. split; [exact Hawa |].
  pose proof (sail_angle_range (sheetingDeg i)) as Hsail.
  assert (- 85 <= alpha_entry i <= 265) as Hentry
    by (unfold alpha_entry; lra).
  destruct (alpha_normalised i); lra.
Qed.

(** X9 at [oversheeted_input]: true wind 10 on course 120. *)
Lemma X9_slider_course_witness :
  0 <= trueWindSpeed oversheeted_input
  /\ 0 <= courseAngleDeg oversheeted_input <= 180
  /\ - 180 < alphaDeg (compute oversheeted_input) <= 180.
Proof.
  assert (0 <= trueWindSpeed oversheeted_input) as Htw
    by (cbn [oversheeted_input trueWindSpeed]; lra).
  assert (0 <= courseAngleDeg oversheeted_input <= 180) as Hc
    by (cbn [oversheeted_input courseAngleDeg]; lra).
  destruct (X9_slider_course_keeps_alpha_above_minus_180
              oversheeted_input Htw Hc) as [_ [_ Halpha]].
  split; [exact Htw | split; [exact Hc | exact Halpha]].
Defined.

(* ===================================================================== *)
(** ** More about the sweep: dead downwind, order of the samples          *)
(* ===================================================================== *)

(** On course 0 the true wind blows along -x, the lift has no x component
    and the drag term of [driveN] is not negative, at any board speed that
    is not negative. *)
Lemma dead_downwind_driveN_nonneg (i : Inputs) (v : R) :
  courseAngleDeg i = 0 -> 0 <= trueWindSpeed i -> 0 <= sailArea i -> 0 <= v ->
  0 <= driveN (compute (with_boardSpeed i v)).
Proof.
  intros Hc Htw HA Hv.
  set (j := with_boardSpeed i v).
  assert (Va_x (compute j) = - trueWindSpeed i - v) as Hx.
  { rewrite Va_x_compute.
    cbn [j with_boardSpeed trueWindSpeed courseAngleDeg boardSpeed].
    rewrite Hc. replace (PI - 0 * DEG) with PI by (unfold DEG; lra).
    rewrite cos_PI. lra. }
  assert (Va_y (compute j) = 0) as Hy.
  { rewrite Va_y_compute.
    cbn [j with_boardSpeed trueWindSpeed courseAngleDeg].
    rewrite Hc. replace (PI - 0 * DEG) with PI by (unfold DEG; lra).
    rewrite sin_PI. lra. }
  pose proof (Va_nonneg j) as HVa.
  assert (0 <= dragN (compute j)) as Hd
    by (apply dragN_nonneg; cbn [j with_boardSpeed sailArea]; exact HA).
  rewrite driveN_compute, F_x_compute, L_x_compute, D_x_compute, Hx, Hy.
  assert (0 < / (apparentWindSpeed (compute j) + 1e-9)) as Hinv
    by (apply Rinv_0_lt_compat; lra).
  unfold Rdiv. rewrite Rmult_0_l, Ropp_0, Rmult_0_r, Rplus_0_l.
  assert (0 <= (trueWindSpeed i + v) * / (apparentWindSpeed (compute j) + 1e-9))
    by (apply Rmult_le_pos; lra).
  nra.
Qed.

(** X10: dead downwind (course 0, true wind and sail area not negative) the
    sweep finds no speed to sustain against any positive baseline water
    drag: [driveN] is not negative at every sample, the clamped drive is 0,
    and the result is speed 0 with a drive force that is not positive. *)
Theorem X10_dead_downwind_top_speed_zero
        (i : Inputs) (c0 c2 : R) (k : nat) :
  courseAngleDeg i = 0 -> 0 <= trueWindSpeed i -> 0 <= sailArea i ->
  0 < c0 -> 0 <= c2 ->
  (forall V, In V App.sweep_samples -> App.drive_at i V = 0)
  /\ exists r,
       App.topSpeed (301 + k) i c0 c2 = Some r
       /\ App.mps r = 0%float
       /\ App.waterDragN r = c0
       /\ App.driveN r <= 0.
Proof.
  intros Hc Htw HA Hc0 Hc2.
  assert (forall V, In V App.sweep_samples -> App.drive_at i V = 0) as Hdrive.
  { intros V HV. pose proof (sweep_samples_nonneg V HV) as Hv.
    pose proof (dead_downwind_driveN_nonneg i _ Hc Htw HA Hv) as Hpos.
    unfold App.drive_at, JsMath.max. cbv zeta. apply Rmax_left. lra. }
  split; [exact Hdrive |].
  pose proof (topSpeed_from_zero i c0 c2 k) as Htop. cbv zeta in Htop.
  rewrite fold_keep_none in Htop.
  - rewrite float_to_R_zero in Htop.
    eexists. split; [exact Htop |]. cbn [App.mps App.waterDragN App.driveN].
    repeat split; [ring |].
    pose proof (dead_downwind_driveN_nonneg i 0 Hc Htw HA (Rle_refl 0)). lra.
  - intros V HV. apply sat_at_false. rewrite (Hdrive V HV).
    unfold App.waterDrag_at.
    pose proof (sweep_samples_nonneg V HV) as Hv.
    assert (0 <= c2 * App.float_to_R V * App.float_to_R V).
    { rewrite Rmult_assoc. apply Rmult_le_pos; [exact Hc2 | nra]. }
    lra.
Qed.

(** X10 at [downwind_input] with the App's water drag coefficients. *)
Lemma X10_dead_downwind_witness :
  courseAngleDeg downwind_input = 0
  /\ 0 <= trueWindSpeed downwind_input
  /\ 0 <= sailArea downwind_input
  /\ 0 < 30 /\ 0 <= 1.2
  /\ exists r,
       App.topSpeed 301 downwind_input 30 1.2 = Some r
       /\ App.mps r = 0%float
       /\ App.waterDragN r = 30
       /\ App.driveN r <= 0.
Proof.
  assert (courseAngleDeg downwind_input = 0) as Hc by reflexivity.
  assert (0 <= trueWindSpeed downwind_input) as Htw
    by (cbn [downwind_input trueWindSpeed]; lra).
  assert (0 <= sailArea downwind_input) as HA
    by (cbn [downwind_input sailArea]; lra).
  assert (0 < 30) as Hc0 by lra.
  assert (0 <= 1.2) as Hc2 by lra.
  destruct (X10_dead_downwind_top_speed_zero downwind_input 30 1.2 0
              Hc Htw HA Hc0 Hc2) as [_ Hres].
  repeat (split; [assumption |]). exact Hres.
Defined.

(** *** The samples on a common binary scale

    Every sample is either zero or a positive binary64 number with an
    exponent between -60 and 0, hence an integer multiple of [2^-60].
    [scaled60] is that integer; comparisons of samples are comparisons of
    integers, which evaluate. *)

Definition scaled60 (f : float) : option Z :=
  match Prim2SF f with
  | S754_zero _ => Some 0%Z
  | S754_finite false m e =>
      if ((- 60 <=? e) && (e <=? 0))%Z
      then Some (Zpos m * 2 ^ (60 + e))%Z
      else None
  | _ => None
  end.

(** Adjacent samples increase, and the [k]-th sample is within [2e-13] of
    [k / 10], as checks on the integers. *)
Fixpoint increasing60 (l : list float) : bool :=
  match l with
  | a :: (b :: _) as rest =>
      match scaled60 a, scaled60 b with
      | Some x, Some y => (x <? y)%Z && increasing60 rest
      | _, _ => false
      end
  | _ => true
  end.

Definition near_tenth (k : nat) (f : float) : bool :=
  match scaled60 f with
  | Some z =>
      (Z.abs (10 * z - Z.of_nat k * 2 ^ 60) * 10 ^ 13 <=? 20 * 2 ^ 60)%Z
  | None => false
  end.

Fixpoint on_grid_from (k : nat) (l : list float) : bool :=
  match l with
  | [] => true
  | f :: rest => near_tenth k f && on_grid_from (S k) rest
  end.

(** Order of two binary64 numbers by their real values. *)
Definition value_lt (a b : float) : Prop :=
  App.float_to_R a < App.float_to_R b.

Section SampleOrder.

Import App.

Lemma pow2_60_pos : 0 < IZR (2 ^ 60).
Proof. apply IZR_lt. reflexivity. Qed.

Lemma scaled60_sound (f : float) (z : Z) :
  scaled60 f = Some z -> float_to_R f = IZR z / IZR (2 ^ 60).
Proof.
  pose proof pow2_60_pos as H60.
  unfold scaled60, float_to_R.
  destruct (Prim2SF f) as [s | s | | s m e]; try discriminate.
  - intros [= <-]. unfold Rdiv. ring.
  - destruct s; [discriminate |].
    destruct ((- 60 <=? e) && (e <=? 0))%Z eqn:Hrange; [| discriminate].
    intros Hz.
    apply (f_equal (fun o => match o with Some v => v | None => 0%Z end)) in Hz.
    cbv beta iota in Hz. subst z.
    apply andb_true_iff in Hrange as [Hlo Hhi].
    apply Z.leb_le in Hlo, Hhi.
    assert (IZR (2 ^ 60) = IZR (2 ^ (60 + e)) * IZR (2 ^ (- e))) as Hsplit.
    { rewrite <- mult_IZR, <- Z.pow_add_r by lia. do 2 f_equal. lia. }
    assert (0 < IZR (2 ^ (60 + e))) as Hp1
      by (apply IZR_lt, Z.pow_pos_nonneg; lia).
    assert (0 < IZR (2 ^ (- e))) as Hp2
      by (apply IZR_lt, Z.pow_pos_nonneg; lia).
    rewrite Hsplit, mult_IZR.
    set (p1 := IZR (2 ^ (60 + e))) in *. set (p2 := IZR (2 ^ (- e))) in *.
    destruct (0 <=? e)%Z eqn:He.
    + apply Z.leb_le in He. assert (e = 0%Z) as He0 by lia.
      assert (p2 = 1) as Hone by (unfold p2; rewrite He0; reflexivity).
      rewrite He0. change (IZR (2 ^ 0)) with 1. rewrite Hone. field. lra.
    + field. lra.
Qed.

Lemma scaled60_lt (a b : float) (x y : Z) :
  scaled60 a = Some x -> scaled60 b = Some y -> (x < y)%Z -> value_lt a b.
Proof.
  intros Ha Hb Hxy. unfold value_lt.
  rewrite (scaled60_sound a x Ha), (scaled60_sound b y Hb).
  pose proof pow2_60_pos as H60. apply IZR_lt in Hxy.
  unfold Rdiv. apply Rmult_lt_compat_r; [| exact Hxy].
  now apply Rinv_0_lt_compat.
Qed.

Lemma increasing60_sorted (l : list float) :
  increasing60 l = true -> Sorted value_lt l.
Proof.
  induction l as [| a l IH]; intros Hinc; [constructor |].
  destruct l as [| b l]; [repeat constructor |].
  change (match scaled60 a, scaled60 b with
          | Some x, Some y => (x <? y)%Z && increasing60 (b :: l)
          | _, _ => false
          end = true) in Hinc.
  destruct (scaled60 a) as [x |] eqn:Ha; [| discriminate].
  destruct (scaled60 b) as [y |] eqn:Hb; [| discriminate].
  apply andb_true_iff in Hinc as [Hxy Hrest]. apply Z.ltb_lt in Hxy.
  constructor; [now apply IH |].
  constructor. exact (scaled60_lt a b x y Ha Hb Hxy).
Qed.

Lemma value_lt_trans : RelationClasses.Transitive value_lt.
Proof. intros a b c. unfold value_lt. lra. Qed.

Lemma sweep_samples_increasing60 : increasing60 sweep_samples = true.
Proof. vm_compute. reflexivity. Qed.

Lemma sweep_samples_sorted : StronglySorted value_lt sweep_samples.
Proof.
  apply Sorted_StronglySorted; [exact value_lt_trans |].
  apply increasing60_sorted, sweep_samples_increasing60.
Qed.

Lemma sweep_samples_on_grid : on_grid_from 0 sweep_samples = true.
Proof. vm_compute. reflexivity. Qed.

Lemma near_tenth_sound (k : nat) (f : float) :
  near_tenth k f = true -> Rabs (float_to_R f - INR k / 10) <= 2e-13.
Proof.
  unfold near_tenth. destruct (scaled60 f) as [z |] eqn:Hz; [| discriminate].
  intros Hb. apply Z.leb_le in Hb.
  rewrite (scaled60_sound f z Hz), INR_IZR_INZ.
  pose proof pow2_60_pos as H60.
  assert (Z.abs (10 * z - Z.of_nat k * 2 ^ 60) * 10 ^ 13 <= 20 * 2 ^ 60)%Z
    as Hb' by exact Hb.
  apply IZR_le in Hb'.
  rewrite !mult_IZR, abs_IZR, minus_IZR, !mult_IZR in Hb'.
  change (IZR (10 ^ 13)) with 10000000000000 in Hb'.
  set (p := IZR (2 ^ 60)) in *. set (n := IZR (Z.of_nat k)) in *.
  replace (IZR z / p - n / 10) with ((10 * IZR z - n * p) * / (10 * p))
    by (field; lra).
  rewrite Rabs_mult, (Rabs_right (/ (10 * p)))
    by (left; apply Rinv_0_lt_compat; lra).
  apply (Rmult_le_reg_r (10 * p)); [lra |].
  rewrite Rmult_assoc, Rinv_l by lra.
  lra.
Qed.

Lemma on_grid_from_nth (l : list float) :
  forall k n,
    on_grid_from k l = true -> (n < length l)%nat ->
    Rabs (float_to_R (nth n l 0%float) - INR (k + n) / 10) <= 2e-13.
Proof.
  induction l as [| f l IH]; intros k n Hgrid Hn; [simpl in Hn; lia |].
  cbn [on_grid_from] in Hgrid.
  apply andb_true_iff in Hgrid as [Hf Hrest].
  destruct n as [| n].
  - rewrite Nat.add_0_r. cbn [nth]. now apply near_tenth_sound.
  - cbn [nth]. replace (k + S n)%nat with (S k + n)%nat by lia.
    apply IH; [exact Hrest | simpl in Hn; lia].
Qed.

End SampleOrder.

Section LastPassingSample.

Import App.

Variable sat : float -> bool.

(** On an increasing list the loop leaves either its initial [best], when
    no sample passes, or the highest passing sample. *)
Lemma fold_keep_last_passing (l : list float) :
  forall best,
    StronglySorted value_lt l ->
    let r := fold_left (keep_if_sat sat) l best in
    (r = best /\ forall V, In V l -> sat V = false)
    \/ (In r l /\ sat r = true
        /\ forall V, In V l -> sat V = true ->
                     float_to_R V <= float_to_R r).
Proof.
  induction l as [| a l IH]; intros best Hsorted; cbv zeta.
  - left. split; [reflexivity | intros V []].
  - apply StronglySorted_inv in Hsorted as [Hrest Hall].
    rewrite Forall_forall in Hall.
    change (fold_left (keep_if_sat sat) (a :: l) best)
      with (fold_left (keep_if_sat sat) l (keep_if_sat sat best a)).
    assert (keep_if_sat sat best a = if sat a then a else best) as Hk
      by reflexivity.
    rewrite Hk. clear Hk.
    destruct (sat a) eqn:Ha.
    + right. destruct (IH a Hrest) as [[Hr Hnone] | [Hin [Hsat Hmax]]].
      * rewrite Hr. split; [now left |]. split; [exact Ha |].
        intros V [<- | HV] HsatV; [lra |].
        rewrite (Hnone V HV) in HsatV. discriminate.
      * split; [now right |]. split; [exact Hsat |].
        intros V [<- | HV] HsatV; [| now apply Hmax].
        left. exact (Hall _ Hin).
    + destruct (IH best Hrest) as [[Hr Hnone] | [Hin [Hsat Hmax]]].
      * left. split; [exact Hr |].
        intros V [<- | HV]; [exact Ha | now apply Hnone].
      * right. split; [now right |]. split; [exact Hsat |].
        intros V [<- | HV] HsatV; [congruence | now apply Hmax].
Qed.

End LastPassingSample.

Lemma sat_at_true_iff (i : Inputs) (c0 c2 : R) (V : float) :
  App.sat_at i c0 c2 V = true
  <-> App.drive_at i V >= App.waterDrag_at c0 c2 V.
Proof.
  unfold App.sat_at. cbv zeta.
  destruct (Rge_dec _ _); split; intros; try assumption;
    try reflexivity; try discriminate; contradiction.
Qed.

Lemma sat_at_false_iff (i : Inputs) (c0 c2 : R) (V : float) :
  App.sat_at i c0 c2 V = false
  <-> App.drive_at i V < App.waterDrag_at c0 c2 V.
Proof.
  unfold App.sat_at. cbv zeta.
  destruct (Rge_dec _ _); split; intros; try reflexivity;
    try discriminate; lra.
Qed.

Definition below_2991 (f : float) : bool :=
  match scaled60 f with
  | Some z => (100 * z <? 2991 * 2 ^ 60)%Z
  | None => false
  end.

Lemma sweep_samples_below_bool : forallb below_2991 App.sweep_samples = true.
Proof. vm_compute. reflexivity. Qed.

Lemma sweep_samples_below (V : float) :
  In V App.sweep_samples -> App.float_to_R V < 29.91.
Proof.
  intros HV. pose proof sweep_samples_below_bool as Hall.
  rewrite forallb_forall in Hall. specialize (Hall V HV).
  unfold below_2991 in Hall.
  destruct (scaled60 V) as [z |] eqn:Hz; [| discriminate].
  apply Z.ltb_lt in Hall. apply IZR_lt in Hall.
  rewrite !mult_IZR in Hall.
  rewrite (scaled60_sound V z Hz). pose proof pow2_60_pos as H60.
  set (p := IZR (2 ^ 60)) in *.
  apply (Rmult_lt_reg_r p); [exact H60 |].
  unfold Rdiv. rewrite Rmult_assoc, Rinv_l by lra. lra.
Qed.

(** X11: the result speed is always one of the 300 samples (so between 0
    and 29.91).  Either no sample passes the test [drive >= waterDrag] and
    the speed is 0, or the result is the highest passing sample: it passes
    the test itself, so the water drag returned is at most
    [max(0, driveN)] of the result, and every sample above it fails. *)
Theorem X11_result_is_highest_passing_sample
        (i : Inputs) (c0 c2 : R) (k : nat) :
  exists r,
    App.topSpeed (301 + k) i c0 c2 = Some r
    /\ In (App.mps r) App.sweep_samples
    /\ 0 <= App.float_to_R (App.mps r) < 29.91
    /\ ((App.mps r = 0%float
         /\ forall V, In V App.sweep_samples ->
                      App.drive_at i V < App.waterDrag_at c0 c2 V)
        \/ (App.drive_at i (App.mps r) >= App.waterDrag_at c0 c2 (App.mps r)
            /\ App.waterDragN r <= Rmax 0 (App.driveN r)
            /\ forall V, In V App.sweep_samples ->
                 App.float_to_R (App.mps r) < App.float_to_R V ->
                 App.drive_at i V < App.waterDrag_at c0 c2 V)).
Proof.
  pose proof (topSpeed_from_zero i c0 c2 k) as Htop. cbv zeta in Htop.
  pose proof (fold_keep_last_passing (App.sat_at i c0 c2) App.sweep_samples
                0%float sweep_samples_sorted) as Hfold.
  cbv zeta in Hfold.
  set (best := fold_left (App.keep_if_sat (App.sat_at i c0 c2))
                         App.sweep_samples 0%float) in *.
  eexists. split; [exact Htop |].
  cbn [App.mps App.waterDragN App.driveN].
  assert (In best App.sweep_samples) as Hin.
  { destruct Hfold as [[Hr _] | [Hin _]]; [| exact Hin].
    rewrite Hr. exact zero_is_sampled. }
  split; [exact Hin |].
  split.
  { split; [now apply sweep_samples_nonneg | now apply sweep_samples_below]. }
  destruct Hfold as [[Hr Hnone] | [_ [Hsat Hmax]]].
  - left. split; [exact Hr |].
    intros V HV. apply sat_at_false_iff. now apply Hnone.
  - right. apply sat_at_true_iff in Hsat.
    split; [exact Hsat |]. split.
    + unfold App.drive_at, App.waterDrag_at, JsMath.max in Hsat.
      cbv zeta in Hsat. lra.
    + intros V HV Hlt. apply sat_at_false_iff.
      destruct (App.sat_at i c0 c2 V) eqn:HsatV; [| reflexivity].
      pose proof (Hmax V HV HsatV). lra.
Qed.

(** X12: more water drag never gives a higher top speed: if both
    coefficients are raised (or kept), the result speed does not
    increase. *)
Theorem X12_top_speed_antitone_in_water_drag
        (i : Inputs) (c0 c2 c0' c2' : R) (k : nat) :
  c0 <= c0' -> c2 <= c2' ->
  exists r r',
    App.topSpeed (301 + k) i c0 c2 = Some r
    /\ App.topSpeed (301 + k) i c0' c2' = Some r'
    /\ App.float_to_R (App.mps r') <= App.float_to_R (App.mps r).
Proof.
  intros Hc0 Hc2.
  pose proof (topSpeed_from_zero i c0 c2 k) as Htop. cbv zeta in Htop.
  pose proof (topSpeed_from_zero i c0' c2' k) as Htop'. cbv zeta in Htop'.
  pose proof (fold_keep_last_passing (App.sat_at i c0 c2) App.sweep_samples
                0%float sweep_samples_sorted) as Hfold.
  pose proof (fold_keep_last_passing (App.sat_at i c0' c2') App.sweep_samples
                0%float sweep_samples_sorted) as Hfold'.
  cbv zeta in Hfold, Hfold'.
  set (best := fold_left (App.keep_if_sat (App.sat_at i c0 c2))
                         App.sweep_samples 0%float) in *.
  set (best' := fold_left (App.keep_if_sat (App.sat_at i c0' c2'))
                          App.sweep_samples 0%float) in *.
  do 2 eexists. split; [exact Htop |]. split; [exact Htop' |].
  cbn [App.mps].
  assert (0 <= App.float_to_R best) as Hbest.
  { apply sweep_samples_nonneg.
    destruct Hfold as [[Hr _] | [Hin _]]; [| exact Hin].
    rewrite Hr. exact zero_is_sampled. }
  destruct Hfold' as [[Hr' _] | [Hin' [Hsat' _]]].
  - rewrite Hr', float_to_R_zero. exact Hbest.
  - assert (App.sat_at i c0 c2 best' = true) as Hsat.
    { apply sat_at_true_iff. apply sat_at_true_iff in Hsat'.
      pose proof (sweep_samples_nonneg best' Hin') as Hv.
      unfold App.waterDrag_at in *.
      set (v := App.float_to_R best') in *.
      assert (0 <= v * v) as Hvv by nra.
      assert (c2 * v * v <= c2' * v * v).
      { rewrite !Rmult_assoc. apply Rmult_le_compat_r; assumption. }
      lra. }
    destruct Hfold as [[_ Hnone] | [_ [_ Hmax]]].
    + rewrite (Hnone best' Hin') in Hsat. discriminate.
    + now apply Hmax.
Qed.

(** X12 for the App's initial drag coefficients and a higher pair. *)
Lemma X12_top_speed_antitone_witness :
  30 <= 40 /\ 1.2 <= 1.5
  /\ exists r r',
       App.topSpeed 301 oversheeted_input 30 1.2 = Some r
       /\ App.topSpeed 301 oversheeted_input 40 1.5 = Some r'
       /\ App.float_to_R (App.mps r') <= App.float_to_R (App.mps r).
Proof.
  assert (30 <= 40) as H0 by lra.
  assert (1.2 <= 1.5) as H2 by lra.
  split; [exact H0 |]. split; [exact H2 |].
  exact (X12_top_speed_antitone_in_water_drag
           oversheeted_input 30 1.2 40 1.5 0 H0 H2).
Defined.

(** X13: the loop takes exactly 300 samples, in strictly increasing order,
    and the [n]-th of them (counting from 0) is within [2e-13] of [n / 10]:
    the speeds sampled are 0, 0.1, ..., 29.9 up to accumulated rounding, and
    30 is not among them. *)
Theorem X13_samples_are_tenths_up_to_29_9 :
  length App.sweep_samples = 300%nat
  /\ StronglySorted value_lt App.sweep_samples
  /\ (forall n, (n < 300)%nat ->
        Rabs (App.float_to_R (nth n App.sweep_samples 0%float) - INR n / 10)
        <= 2e-13)
  /\ (forall V, In V App.sweep_samples -> App.float_to_R V < 29.91).
Proof.
  split; [exact sweep_samples_length |].
  split; [exact sweep_samples_sorted |].
  split; [| exact sweep_samples_below].
  intros n Hn.
  apply (on_grid_from_nth App.sweep_samples 0 n sweep_samples_on_grid).
  rewrite sweep_samples_length. exact Hn.
Qed.

(* ===================================================================== *)
(** ** Viz.tsx: the vector sketch                                         *)
(* ===================================================================== *)

Module Viz.

(** The canvas is modelled by what is drawn on it: the arrows, in the order
    of the calls of [drawArrow], each with its shaft and the two corners of
    its head.  Colours, label texts (which go through [toFixed]) and the
    HiDPI set-up of the backing store are left out; they do not enter the
    geometry. *)

Record Point : Type := mkPoint { px : R; py : R }.

Record Arrow : Type := mkArrow {
  tail : Point;
  tip : Point;
  corner1 : Point;
  corner2 : Point
}.

Definition clamp (x lo hi : R) : R := JsMath.max lo (JsMath.min hi x).

(** [drawArrow(x0, y0, x1, y1)] *)
Definition drawArrow (x0 y0 x1 y1 : R) : Arrow :=
  let headLen := 10 in
  let dx := x1 - x0 in
  let dy := y1 - y0 in
  let ang := JsMath.atan2 dy dx in
  {| tail := mkPoint x0 y0;
     tip := mkPoint x1 y1;
     corner1 := mkPoint (x1 - headLen * cos (ang - PI / 6))
                        (y1 - headLen * sin (ang - PI / 6));
     corner2 := mkPoint (x1 - headLen * cos (ang + PI / 6))
                        (y1 - headLen * sin (ang + PI / 6)) |}.

(** [toScreen(x, y, scale)] about the origin [(originX, originY)]. *)
Definition toScreen (originX originY x y scale : R) : Point :=
  {| px := originX + scale * x; py := originY - scale * y |}.

(** The apparent wind vector as the effect rebuilds it from the angle and
    the speed of [out]. *)
Definition wind_vector (out : Outputs) : R * R :=
  let awa := apparentWindAngleDeg out * PI / 180 in
  let Va := apparentWindSpeed out in
  (Va * cos awa, Va * sin awa).

Definition FxPix (out : Outputs) : R :=
  clamp (Physics.driveN out * 0.15) (- 160) 160.
Definition FyPix (out : Outputs) : R :=
  clamp (sideN out * 0.15) (- 160) 160.

(** The arrows of one run of the effect on a canvas of CSS size
    [cssW] x [cssH]: the two axes, the apparent wind, the resultant, the
    drive component and the side component. *)
Definition arrows (cssW cssH : R) (out : Outputs) : list Arrow :=
  let cx := cssW * 0.5 in
  let cy := cssH * 0.55 in
  let originX := cx in
  let originY := cy in
  let windScale := 10 in
  let wEnd := toScreen originX originY
                       (fst (wind_vector out)) (snd (wind_vector out))
                       windScale in
  [ drawArrow originX originY (originX + 120) originY;
    drawArrow originX originY originX (originY - 120);
    drawArrow originX originY (px wEnd) (py wEnd);
    drawArrow originX originY (originX + FxPix out) (originY - FyPix out);
    drawArrow originX originY (originX + FxPix out) originY;
    drawArrow originX originY originX (originY - FyPix out) ].

End Viz.

(* ===================================================================== *)
(** ** ForceViz: the auto-scaled force diagram                            *)
(* ===================================================================== *)

Module ForceViz.

Record Point : Type := mkPoint { px : R; py : R }.

Record Arrow : Type := mkArrow {
  tail : Point;
  tip : Point;
  corner1 : Point;
  corner2 : Point
}.

(** [drawArrow(ctx, x0, y0, x1, y1, label)]: nothing is drawn for an arrow
    shorter than [1e-6]. *)
Definition drawArrow (x0 y0 x1 y1 : R) : option Arrow :=
  let dx := x1 - x0 in
  let dy := y1 - y0 in
  let len := JsMath.hypot dx dy in
  if Rlt_dec len 1e-6 then None
  else
    let ux := dx / len in
    let uy := dy / len in
    let head := 10 in
    Some {| tail := mkPoint x0 y0;
            tip := mkPoint x1 y1;
            corner1 := mkPoint (x1 - head * (ux - uy * 0.4))
                               (y1 - head * (uy + ux * 0.4));
            corner2 := mkPoint (x1 - head * (ux + uy * 0.4))
                               (y1 - head * (uy - ux * 0.4)) |}.

(** [Math.max(...xs, last)] for a non-empty argument list. *)
Definition max_of (xs : list R) (last : R) : R :=
  fold_right JsMath.max last xs.

(** The raw vectors the scale is fitted to. *)
Definition forces (out : Outputs) : list (R * R) :=
  let windWeight := 25 in
  [ (Va_x out * windWeight, Va_y out * windWeight);
    (L_x out, L_y out);
    (D_x out, D_y out);
    (F_x out, F_y out) ].

Definition scale (W H : R) (out : Outputs) : R :=
  let margin := 30 in
  let maxX := max_of (map (fun v => Rabs (fst v)) (forces out)) 1e-6 in
  let maxY := max_of (map (fun v => Rabs (snd v)) (forces out)) 1e-6 in
  JsMath.min ((W / 2 - margin) / maxX) ((H / 2 - margin) / maxY).

(** [map(x, y)] *)
Definition to_canvas (W H : R) (out : Outputs) (x y : R) : Point :=
  let cx := W / 2 in
  let cy := H / 2 in
  {| px := cx + x * scale W H out; py := cy - y * scale W H out |}.

(** The arrows of one run of the effect on a [W] x [H] canvas: the two
    axes, then the apparent wind, lift, drag and resultant, each from the
    centre; [None] marks an arrow that is skipped. *)
Definition arrows (W H : R) (out : Outputs) : list (option Arrow) :=
  let cx := W / 2 in
  let cy := H / 2 in
  let to v := to_canvas W H out (fst v) (snd v) in
  drawArrow (cx - 100) cy (cx + 140) cy
  :: drawArrow cx (cy + 100) cx (cy - 140)
  :: map (fun v => drawArrow cx cy (px (to v)) (py (to v))) (forces out).

End ForceViz.

(* ===================================================================== *)
(** ** Polar and cartesian coordinates                                    *)
(* ===================================================================== *)

Section Polar.

Lemma root_one_plus_square_pos (t : R) : 0 < sqrt (1 + t²).
Proof. apply sqrt_lt_R0. pose proof (Rle_0_sqr t). lra. Qed.

Lemma hypot_factor (x y : R) :
  x <> 0 -> JsMath.hypot x y = Rabs x * sqrt (1 + (y / x)²).
Proof.
  intros Hx. unfold JsMath.hypot.
  replace (x * x + y * y) with (x² * (1 + (y / x)²))
    by (unfold Rsqr; field; exact Hx).
  rewrite sqrt_mult.
  - now rewrite sqrt_Rsqr_abs.
  - apply Rle_0_sqr.
  - pose proof (Rle_0_sqr (y / x)). lra.
Qed.

(** [hypot] and [atan2] are inverse to the polar form: the point is found
    again from its length and its angle. *)
Lemma polar_roundtrip (x y : R) :
  JsMath.hypot x y * cos (JsMath.atan2 y x) = x
  /\ JsMath.hypot x y * sin (JsMath.atan2 y x) = y.
Proof.
  unfold JsMath.atan2.
  destruct (Rlt_dec 0 x) as [Hx | Hx].
  - rewrite hypot_factor by lra. rewrite Rabs_right by lra.
    rewrite cos_atan, sin_atan.
    pose proof (root_one_plus_square_pos (y / x)) as Hs.
    split; field; lra.
  - destruct (Rlt_dec x 0) as [Hx' | Hx'].
    + rewrite hypot_factor by lra. rewrite Rabs_left by lra.
      pose proof (root_one_plus_square_pos (y / x)) as Hs.
      destruct (Rle_dec 0 y) as [Hy | Hy].
      * rewrite neg_cos, neg_sin, cos_atan, sin_atan. split; field; lra.
      * replace (atan (y / x) - PI) with (- (PI - atan (y / x))) by lra.
        rewrite cos_neg, sin_neg, cos_supplement, sin_PI_x,
          cos_atan, sin_atan.
        split; field; lra.
    + assert (x = 0) as -> by lra.
      unfold JsMath.hypot.
      replace (0 * 0 + y * y) with (y²) by (unfold Rsqr; ring).
      rewrite sqrt_Rsqr_abs.
      destruct (Rlt_dec 0 y) as [Hy | Hy].
      * rewrite cos_PI2, sin_PI2, Rabs_right by lra. lra.
      * destruct (Rlt_dec y 0) as [Hy' | Hy'].
        -- rewrite cos_neg, sin_neg, cos_PI2, sin_PI2, Rabs_left by lra. lra.
        -- assert (y = 0) as -> by lra.
           rewrite Rabs_R0, cos_0, sin_0. lra.
Qed.

End Polar.

(** X14: the sketch rebuilds the apparent wind vector from the angle and the
    speed that [compute] returns, and finds exactly the components
    [Va_x], [Va_y] of the same output; the wind arrow therefore ends 10
    pixels per m/s from the origin, with the y axis turned over. *)
Theorem X14_viz_wind_vector_is_Va (cssW cssH : R) (i : Inputs) :
  Viz.wind_vector (compute i) = (Va_x (compute i), Va_y (compute i))
  /\ Viz.tip (nth 2 (Viz.arrows cssW cssH (compute i))
                  (Viz.drawArrow 0 0 0 0))
     = Viz.mkPoint (cssW * 0.5 + 10 * Va_x (compute i))
                   (cssH * 0.55 - 10 * Va_y (compute i)).
Proof.
  assert (Viz.wind_vector (compute i)
          = (Va_x (compute i), Va_y (compute i))) as Hw.
  { unfold Viz.wind_vector. cbv zeta.
    rewrite awaDeg_compute, Va_compute.
    unfold angleDegFromXY, RAD, vecMag.
    pose proof PI_RGT_0 as Hpi.
    replace (JsMath.atan2 (Va_y (compute i)) (Va_x (compute i))
             * (180 / PI) * PI / 180)
      with (JsMath.atan2 (Va_y (compute i)) (Va_x (compute i)))
      by (field; lra).
    destruct (polar_roundtrip (Va_x (compute i)) (Va_y (compute i)))
      as [Hx Hy].
    now rewrite Hx, Hy. }
  split; [exact Hw |].
  unfold Viz.arrows. cbv zeta. cbn [nth].
  rewrite Hw. reflexivity.
Qed.

(* ===================================================================== *)
(** ** What the two diagrams draw                                         *)
(* ===================================================================== *)

Section VizFacts.

Lemma Rabs_le_between (x b : R) : Rabs x <= b -> - b <= x <= b.
Proof.
  intros H. pose proof (Rle_abs x). pose proof (Rle_abs (- x)) as Hn.
  rewrite Rabs_Ropp in Hn. lra.
Qed.

Lemma viz_clamp_bounds (x : R) : Rabs (Viz.clamp x (- 160) 160) <= 160.
Proof.
  unfold Viz.clamp. apply Rabs_le. split.
  - apply (clamp_lower x (- 160) 160).
  - apply (clamp_upper x (- 160) 160). lra.
Qed.

Lemma viz_clamp_inside (x lo hi : R) :
  lo <= x <= hi -> Viz.clamp x lo hi = x.
Proof. exact (clamp_inside x lo hi). Qed.

End VizFacts.

(** X15: whatever the force, the resultant arrow of the sketch starts at
    the origin and ends at most 160 pixels from it along each axis; while
    both components stay within 160 px at 0.15 px/N the arrow is to
    scale. *)
Theorem X15_viz_force_arrow_in_box (cssW cssH : R) (out : Outputs) :
  let F_arrow := nth 3 (Viz.arrows cssW cssH out) (Viz.drawArrow 0 0 0 0) in
  Viz.tail F_arrow = Viz.mkPoint (cssW * 0.5) (cssH * 0.55)
  /\ Viz.tip F_arrow
     = Viz.mkPoint (cssW * 0.5 + Viz.FxPix out) (cssH * 0.55 - Viz.FyPix out)
  /\ Rabs (Viz.FxPix out) <= 160
  /\ Rabs (Viz.FyPix out) <= 160
  /\ (Rabs (driveN out * 0.15) <= 160 -> Rabs (sideN out * 0.15) <= 160 ->
      Viz.tip F_arrow
      = Viz.mkPoint (cssW * 0.5 + 0.15 * driveN out)
                    (cssH * 0.55 - 0.15 * sideN out)).
Proof.
  cbv zeta. unfold Viz.arrows. cbv zeta.
  cbn [nth Viz.drawArrow Viz.tail Viz.tip].
  split; [reflexivity |]. split; [reflexivity |].
  split; [apply viz_clamp_bounds |]. split; [apply viz_clamp_bounds |].
  intros Hx Hy.
  apply Rabs_le_between in Hx, Hy.
  unfold Viz.FxPix, Viz.FyPix.
  rewrite !viz_clamp_inside by lra.
  f_equal; ring.
Qed.

(** An output record with a drive of 100 N and a side force of -200 N. *)
Definition sample_output : Outputs :=
  {| apparentWindSpeed := 5; apparentWindAngleDeg := 90; alphaDeg := 70;
     cl := 1; cd := 0.1; liftN := 200; dragN := 100;
     driveN := 100; sideN := - 200; powerW := 800;
     Va_x := 0; Va_y := 5; L_x := 0; L_y := - 200; D_x := 100; D_y := 0;
     F_x := 100; F_y := - 200 |}.

(** X15 on a 520 x 360 canvas for [sample_output]. *)
Lemma X15_viz_force_arrow_witness :
  Rabs (driveN sample_output * 0.15) <= 160
  /\ Rabs (sideN sample_output * 0.15) <= 160
  /\ Viz.tip (nth 3 (Viz.arrows 520 360 sample_output)
                  (Viz.drawArrow 0 0 0 0))
     = Viz.mkPoint (520 * 0.5 + 0.15 * driveN sample_output)
                   (360 * 0.55 - 0.15 * sideN sample_output).
Proof.
  assert (Rabs (driveN sample_output * 0.15) <= 160) as Hx
    by (cbn [sample_output driveN]; apply Rabs_le; lra).
  assert (Rabs (sideN sample_output * 0.15) <= 160) as Hy
    by (cbn [sample_output sideN]; apply Rabs_le; lra).
  pose proof (X15_viz_force_arrow_in_box 520 360 sample_output) as H.
  cbv zeta in H. destruct H as [_ [_ [_ [_ Htip]]]].
  split; [exact Hx | split; [exact Hy | exact (Htip Hx Hy)]].
Defined.

(** X16: every arrow of the sketch has both corners of its head exactly 10
    pixels from its tip, whatever its direction and length (also for an
    arrow of length 0). *)
Theorem X16_viz_arrow_head_size (x0 y0 x1 y1 : R) :
  let a := Viz.drawArrow x0 y0 x1 y1 in
  (Viz.px (Viz.corner1 a) - Viz.px (Viz.tip a))²
  + (Viz.py (Viz.corner1 a) - Viz.py (Viz.tip a))² = 100
  /\ (Viz.px (Viz.corner2 a) - Viz.px (Viz.tip a))²
     + (Viz.py (Viz.corner2 a) - Viz.py (Viz.tip a))² = 100.
Proof.
  cbv zeta. unfold Viz.drawArrow. cbv zeta.
  cbn [Viz.corner1 Viz.corner2 Viz.tip Viz.px Viz.py].
  set (ang := JsMath.atan2 (y1 - y0) (x1 - x0)).
  pose proof (sin2_cos2 (ang - PI / 6)) as H1.
  pose proof (sin2_cos2 (ang + PI / 6)) as H2.
  unfold Rsqr in *. split; nra.
Qed.

Section ForceVizFacts.

Lemma max_of_ge_last (xs : list R) (last : R) : last <= ForceViz.max_of xs last.
Proof.
  induction xs as [| x xs IH]; [apply Rle_refl |].
  cbn [ForceViz.max_of fold_right]. unfold JsMath.max.
  eapply Rle_trans; [exact IH | apply Rmax_r].
Qed.

Lemma max_of_ge_in (xs : list R) (last x : R) :
  In x xs -> x <= ForceViz.max_of xs last.
Proof.
  induction xs as [| y xs IH]; intros []; cbn [ForceViz.max_of fold_right];
    unfold JsMath.max.
  - subst. apply Rmax_l.
  - eapply Rle_trans; [now apply IH | apply Rmax_r].
Qed.

Variables W H : R.
Variable out : Outputs.
Hypothesis wide : 60 <= W.
Hypothesis high : 60 <= H.

Let maxX : R :=
  ForceViz.max_of (map (fun v => Rabs (fst v)) (ForceViz.forces out)) 1e-6.
Let maxY : R :=
  ForceViz.max_of (map (fun v => Rabs (snd v)) (ForceViz.forces out)) 1e-6.

Lemma maxX_pos : 0 < maxX.
Proof. pose proof (max_of_ge_last (map (fun v => Rabs (fst v))
                                       (ForceViz.forces out)) 1e-6).
       unfold maxX. lra. Qed.

Lemma maxY_pos : 0 < maxY.
Proof. pose proof (max_of_ge_last (map (fun v => Rabs (snd v))
                                       (ForceViz.forces out)) 1e-6).
       unfold maxY. lra. Qed.

Lemma scale_nonneg : 0 <= ForceViz.scale W H out.
Proof.
  unfold ForceViz.scale. cbv zeta. fold maxX. fold maxY.
  pose proof maxX_pos. pose proof maxY_pos.
  unfold JsMath.min. apply Rmin_glb; unfold Rdiv;
    (apply Rmult_le_pos; [lra | left; now apply Rinv_0_lt_compat]).
Qed.

Lemma scale_fits_x (v : R * R) :
  In v (ForceViz.forces out) ->
  Rabs (fst v) * ForceViz.scale W H out <= W / 2 - 30.
Proof.
  intros Hv. pose proof maxX_pos as Hpos. pose proof scale_nonneg as Hs.
  assert (Rabs (fst v) <= maxX) as Hle.
  { unfold maxX. apply max_of_ge_in.
    apply (in_map (fun v => Rabs (fst v))). exact Hv. }
  assert (ForceViz.scale W H out <= (W / 2 - 30) / maxX) as Hsc.
  { unfold ForceViz.scale. cbv zeta. fold maxX. fold maxY.
    unfold JsMath.min. apply Rmin_l. }
  apply Rle_trans with (maxX * ForceViz.scale W H out).
  - apply Rmult_le_compat_r; assumption.
  - apply Rle_trans with (maxX * ((W / 2 - 30) / maxX)).
    + apply Rmult_le_compat_l; lra.
    + right. field. lra.
Qed.

Lemma scale_fits_y (v : R * R) :
  In v (ForceViz.forces out) ->
  Rabs (snd v) * ForceViz.scale W H out <= H / 2 - 30.
Proof.
  intros Hv. pose proof maxY_pos as Hpos. pose proof scale_nonneg as Hs.
  assert (Rabs (snd v) <= maxY) as Hle.
  { unfold maxY. apply max_of_ge_in.
    apply (in_map (fun v => Rabs (snd v))). exact Hv. }
  assert (ForceViz.scale W H out <= (H / 2 - 30) / maxY) as Hsc.
  { unfold ForceViz.scale. cbv zeta. fold maxX. fold maxY.
    unfold JsMath.min. apply Rmin_r. }
  apply Rle_trans with (maxY * ForceViz.scale W H out).
  - apply Rmult_le_compat_r; assumption.
  - apply Rle_trans with (maxY * ((H / 2 - 30) / maxY)).
    + apply Rmult_le_compat_l; lra.
    + right. field. lra.
Qed.

End ForceVizFacts.

(** X17: on a canvas of at least 60 x 60 the scale of the force diagram is
    not negative, and each of the four vectors (apparent wind, lift, drag,
    resultant) is mapped to a point at least 30 pixels inside the canvas on
    every side: no arrow of the diagram leaves the canvas, however large the
    forces. *)
Theorem X17_forceviz_arrows_fit (W H : R) (out : Outputs) (v : R * R) :
  60 <= W -> 60 <= H -> In v (ForceViz.forces out) ->
  let p := ForceViz.to_canvas W H out (fst v) (snd v) in
  0 <= ForceViz.scale W H out
  /\ 30 <= ForceViz.px p <= W - 30
  /\ 30 <= ForceViz.py p <= H - 30.
Proof.
  intros HW HH Hv. cbv zeta.
  pose proof (scale_nonneg W H out HW HH) as Hs.
  pose proof (scale_fits_x W H out HW HH v Hv) as Hx.
  pose proof (scale_fits_y W H out HW HH v Hv) as Hy.
  split; [exact Hs |].
  unfold ForceViz.to_canvas. cbv zeta. cbn [ForceViz.px ForceViz.py].
  set (s := ForceViz.scale W H out) in *.
  assert (Rabs (fst v * s) <= W / 2 - 30) as Hax
    by (rewrite Rabs_mult, (Rabs_right s) by lra; exact Hx).
  assert (Rabs (snd v * s) <= H / 2 - 30) as Hay
    by (rewrite Rabs_mult, (Rabs_right s) by lra; exact Hy).
  apply Rabs_le_between in Hax, Hay. lra.
Qed.

(** X17 on the 520 x 360 canvas of the component, for the resultant of
    [oversheeted_input]. *)
Lemma X17_forceviz_arrows_fit_witness :
  60 <= 520 /\ 60 <= 360
  /\ In (F_x (compute oversheeted_input), F_y (compute oversheeted_input))
        (ForceViz.forces (compute oversheeted_input))
  /\ 30 <= ForceViz.px
             (ForceViz.to_canvas 520 360 (compute oversheeted_input)
                (F_x (compute oversheeted_input))
                (F_y (compute oversheeted_input)))
        <= 520 - 30.
Proof.
  assert (60 <= 520) as HW by lra.
  assert (60 <= 360) as HH by lra.
  assert (In (F_x (compute oversheeted_input), F_y (compute oversheeted_input))
             (ForceViz.forces (compute oversheeted_input))) as Hv
    by (unfold ForceViz.forces; cbv zeta; cbn [In]; tauto).
  pose proof (X17_forceviz_arrows_fit 520 360 (compute oversheeted_input)
                _ HW HH Hv) as Hfit.
  cbv zeta in Hfit. cbn [fst snd] in Hfit.
  destruct Hfit as [_ [Hx _]].
  split; [exact HW | split; [exact HH | split; [exact Hv | exact Hx]]].
Defined.

(** X18: [drawArrow] of the force diagram draws nothing when the arrow is
    shorter than [1e-6] pixels; otherwise the arrow has that length at
    least, and both corners of its head lie at the same distance from the
    tip, [sqrt 116] pixels ([10] along the shaft and [4] across). *)
Theorem X18_forceviz_arrow_skipped_or_headed (x0 y0 x1 y1 : R) :
  let len := JsMath.hypot (x1 - x0) (y1 - y0) in
  (len < 1e-6 /\ ForceViz.drawArrow x0 y0 x1 y1 = None)
  \/ (1e-6 <= len
      /\ exists a,
           ForceViz.drawArrow x0 y0 x1 y1 = Some a
           /\ ForceViz.tail a = ForceViz.mkPoint x0 y0
           /\ ForceViz.tip a = ForceViz.mkPoint x1 y1
           /\ (ForceViz.px (ForceViz.corner1 a) - x1)²
              + (ForceViz.py (ForceViz.corner1 a) - y1)² = 116
           /\ (ForceViz.px (ForceViz.corner2 a) - x1)²
              + (ForceViz.py (ForceViz.corner2 a) - y1)² = 116).
Proof.
  cbv zeta. unfold ForceViz.drawArrow. cbv zeta.
  set (dx := x1 - x0). set (dy := y1 - y0).
  set (len := JsMath.hypot dx dy).
  destruct (Rlt_dec len 1e-6) as [Hshort | Hlong].
  - left. split; [exact Hshort | reflexivity].
  - right. split; [lra |].
    eexists. split; [reflexivity |].
    cbn [ForceViz.tail ForceViz.tip ForceViz.corner1 ForceViz.corner2
         ForceViz.px ForceViz.py].
    split; [reflexivity |]. split; [reflexivity |].
    assert (0 < len) as Hpos by lra.
    assert (len * len = dx * dx + dy * dy) as Hsq.
    { unfold len, JsMath.hypot. apply sqrt_sqrt. nra. }
    assert ((dx / len) * (dx / len) + (dy / len) * (dy / len) = 1) as Hunit.
    { transitivity ((dx * dx + dy * dy) / (len * len));
        [field; lra | rewrite <- Hsq; field; lra]. }
    set (ux := dx / len) in *. set (uy := dy / len) in *.
    unfold Rsqr. split; nra.
Qed.

(* ===================================================================== *)
(** ** presets.ts: presets in local storage                               *)
(* ===================================================================== *)

Module Presets.

Import String.
Local Open Scope string_scope.
Set Warnings "-register-all".

(** Values as [JSON.parse] returns them.  A finite number is a real, as in
    the force model; [JInf] is the infinity that [JSON.parse] returns for a
    literal too large for binary64, such as [1e400] (it never returns NaN).
    An object is the list of its own properties in insertion order. *)
Inductive json : Type :=
| JNull
| JBool (b : bool)
| JNum (x : R)
| JInf (negative : bool)
| JStr (s : string)
| JArr (items : list json)
| JObj (fields : list (string * json)).

(** A text, as far as this module can tell texts apart: [JSON.parse]
    either throws on it ([Malformed], which covers the empty string) or
    returns a value. *)
Inductive text : Type :=
| Malformed
| Json (v : json).

(** What [JSON.parse] reads from the text [JSON.stringify] writes for a
    value: an infinite number is written as [null]; strings, finite
    numbers, arrays and objects come back as they were. *)
Fixpoint reparse (v : json) : json :=
  match v with
  | JInf _ => JNull
  | JArr items => JArr (map reparse items)
  | JObj fields => JObj (map (fun kv => (fst kv, reparse (snd kv))) fields)
  | _ => v
  end.

(** [JSON.stringify(v)], also with an indentation argument. *)
Definition stringify (v : json) : text := Json (reparse v).

(** A value that holds no infinite number. *)
Fixpoint finite (v : json) : bool :=
  match v with
  | JInf _ => false
  | JArr items => forallb finite items
  | JObj fields => forallb (fun kv => finite (snd kv)) fields
  | _ => true
  end.

(** The item stored under [STORAGE_KEY]; [None] when [getItem] returns
    [null]. *)
Definition storage : Type := option text.

(** [v.name], [v.inputs]: the property of an object, [undefined] ([None])
    on anything else that is not [null]. *)
Fixpoint lookup (k : string) (fields : list (string * json)) : option json :=
  match fields with
  | [] => None
  | (k', v) :: rest => if k' =? k then Some v else lookup k rest
  end.

Definition prop (v : json) (k : string) : option json :=
  match v with
  | JObj fields => lookup k fields
  | _ => None
  end.

(** JavaScript truthiness of a parsed value. *)
Definition truthy (v : json) : bool :=
  match v with
  | JNull => false
  | JBool b => b
  | JNum x => if Req_dec_T x 0 then false else true
  | JInf _ => true
  | JStr s => negb (s =? "")
  | JArr _ | JObj _ => true
  end.

(** [p && typeof p.name === "string" && p.inputs] *)
Definition valid (p : json) : bool :=
  truthy p
  && match prop p "name" with Some (JStr _) => true | _ => false end
  && match prop p "inputs" with Some v => truthy v | None => false end.

(** [p.name] of an entry that passed [valid]. *)
Definition name_of (p : json) : string :=
  match prop p "name" with
  | Some (JStr s) => s
  | _ => ""
  end.

Definition loadPresets (st : storage) : list json :=
  match st with
  | None => []
  | Some Malformed => []
  | Some (Json (JArr parsed)) => filter valid parsed
  | Some (Json _) => []
  end.

Definition savePresets (presets : list json) : storage :=
  Some (stringify (JArr presets)).

(** The [Inputs] object of the App, its seven fields finite numbers as in
    the force model, and [{ name, createdAt, inputs }]. *)
Definition inputs_json (i : Inputs) : json :=
  JObj [ ("trueWindSpeed", JNum (trueWindSpeed i));
         ("courseAngleDeg", JNum (courseAngleDeg i));
         ("boardSpeed", JNum (boardSpeed i));
         ("sailArea", JNum (sailArea i));
         ("sheetingDeg", JNum (sheetingDeg i));
         ("downhaul", JNum (downhaul i));
         ("outhaul", JNum (outhaul i)) ].

Definition preset (name createdAt : string) (i : Inputs) : json :=
  JObj [ ("name", JStr name);
         ("createdAt", JStr createdAt);
         ("inputs", inputs_json i) ].

(** An entry whose [inputs] is the number a literal such as [1e400] parses
    to. *)
Definition overflowing (name : string) : json :=
  JObj [ ("name", JStr name); ("inputs", JInf false) ].

(** [Array.prototype.findIndex] ([None] for -1) and [a[n] = x] for an index
    inside the array. *)
Fixpoint findIndex {A : Type} (f : A -> bool) (l : list A) : option nat :=
  match l with
  | [] => None
  | x :: rest =>
      if f x then Some O
      else match findIndex f rest with
           | Some n => Some (S n)
           | None => None
           end
  end.

Fixpoint set_at {A : Type} (n : nat) (x : A) (l : list A) : list A :=
  match l, n with
  | [], _ => []
  | _ :: rest, O => x :: rest
  | y :: rest, S n' => y :: set_at n' x rest
  end.

Section WithStrings.

(** [String.prototype.toLowerCase] and [trim] (both defined on all of
    Unicode) and the clock reading [new Date().toISOString()] are taken as
    given. *)
Variable toLowerCase : string -> string.
Variable trim : string -> string.
Variable now : string.

Definition upsertPreset (name : string) (inputs : Inputs) (st : storage)
  : list json * storage :=
  let presets := loadPresets st in
  let trimmed := trim name in
  if trimmed =? "" then (presets, st)
  else
    let idx :=
      findIndex (fun p => toLowerCase (name_of p) =? toLowerCase trimmed)
                presets in
    let next := preset trimmed now inputs in
    match idx with
    | Some n =>
        let presets' := set_at n next presets in
        (presets', savePresets presets')
    | None =>
        let out := firstn 50 (next :: presets) in
        (out, savePresets out)
    end.

End WithStrings.

Definition deletePreset (name : string) (st : storage)
  : list json * storage :=
  let presets :=
    filter (fun p => negb (name_of p =? name)) (loadPresets st) in
  (presets, savePresets presets).

Definition exportPresetsJson (st : storage) : text :=
  stringify (JArr (loadPresets st)).

(** What [importPresetsJson] throws. *)
Inductive exn : Type :=
| SyntaxError
| Error (message : string).

Definition importPresetsJson (t : text) (st : storage)
  : (exn + list json) * storage :=
  match t with
  | Malformed => (inl SyntaxError, st)
  | Json (JArr parsed) =>
      if forallb valid parsed
      then
        let st' := savePresets (firstn 200 parsed) in
        (inr (loadPresets st'), st')
      else (inl (Error "Invalid preset structure."), st)
  | Json _ => (inl (Error "JSON must be an array of presets."), st)
  end.

(** *** Stores used as examples *)

(** Two presets saved earlier, "b" and "c". *)
Definition two_presets : list json :=
  [ preset "b" "2023" downwind_input; preset "c" "2023" aft_quarter_input ].

Definition two_stored : storage := Some (Json (JArr two_presets)).

End Presets.

Section PresetFacts.

Import String Presets.
Local Open Scope string_scope.

Lemma filter_all {A : Type} (f : A -> bool) (l : list A) :
  forallb f l = true -> filter f l = l.
Proof.
  induction l as [| x l IH]; [reflexivity |]. cbn [forallb filter].
  intros Hall. apply andb_true_iff in Hall as [Hx Hl].
  rewrite Hx. f_equal. now apply IH.
Qed.

Lemma forallb_filter {A : Type} (f : A -> bool) (l : list A) :
  forallb f (filter f l) = true.
Proof.
  induction l as [| x l IH]; [reflexivity |]. cbn [filter].
  destruct (f x) eqn:Hx; [| exact IH].
  cbn [forallb]. now rewrite Hx.
Qed.

Lemma forallb_filter_other {A : Type} (f g : A -> bool) (l : list A) :
  forallb f l = true -> forallb f (filter g l) = true.
Proof.
  intros Hall. rewrite forallb_forall in *. intros x Hx.
  apply filter_In in Hx as [Hx _]. now apply Hall.
Qed.

Lemma forallb_firstn {A : Type} (f : A -> bool) (n : nat) (l : list A) :
  forallb f l = true -> forallb f (firstn n l) = true.
Proof.
  revert n. induction l as [| x l IH]; intros [| n] Hall; try reflexivity.
  cbn [firstn forallb] in *.
  apply andb_true_iff in Hall as [Hx Hl].
  rewrite Hx. now apply IH.
Qed.

(** Induction on a value, with the hypothesis for every item of an array
    and every property of an object. *)
Lemma json_nested_ind (P : json -> Prop) :
  P JNull ->
  (forall b, P (JBool b)) ->
  (forall x, P (JNum x)) ->
  (forall n, P (JInf n)) ->
  (forall s, P (JStr s)) ->
  (forall items, Forall P items -> P (JArr items)) ->
  (forall fields, Forall (fun kv => P (snd kv)) fields -> P (JObj fields)) ->
  forall v, P v.
Proof.
  intros HNull HBool HNum HInf HStr HArr HObj.
  fix IH 1. intros [| b | x | n | s | items | fields].
  - exact HNull.
  - apply HBool.
  - apply HNum.
  - apply HInf.
  - apply HStr.
  - apply HArr. revert items. fix IHl 1. intros [| p items].
    + constructor.
    + constructor; [apply IH | apply IHl].
  - apply HObj. revert fields. fix IHl 1. intros [| kv fields].
    + constructor.
    + constructor; [apply IH | apply IHl].
Qed.

(** Writing and reading back changes nothing in a value without infinite
    numbers, and leaves no infinite number in any value. *)
Lemma reparse_finite (v : json) : finite v = true -> reparse v = v.
Proof.
  induction v as [| b | x | n | s | items IH | fields IH]
    using json_nested_ind; intros Hfin; try reflexivity.
  - discriminate.
  - cbn [reparse finite] in *. f_equal.
    induction IH as [| p items Hp _ IHl]; [reflexivity |].
    cbn [map forallb] in *. apply andb_true_iff in Hfin as [H1 H2].
    f_equal; [now apply Hp | now apply IHl].
  - cbn [reparse finite] in *. f_equal.
    induction IH as [| [k w] fields Hp _ IHl]; [reflexivity |].
    cbn [map forallb fst snd] in *. apply andb_true_iff in Hfin as [H1 H2].
    f_equal; [f_equal; now apply Hp | now apply IHl].
Qed.

Lemma finite_reparse (v : json) : finite (reparse v) = true.
Proof.
  induction v as [| b | x | n | s | items IH | fields IH]
    using json_nested_ind; try reflexivity.
  - cbn [reparse finite].
    induction IH as [| p items Hp _ IHl]; [reflexivity |].
    cbn [map forallb]. now rewrite Hp, IHl.
  - cbn [reparse finite].
    induction IH as [| [k w] fields Hp _ IHl]; [reflexivity |].
    cbn [map forallb fst snd] in *. now rewrite Hp, IHl.
Qed.

Lemma map_reparse_finite (l : list json) :
  forallb finite l = true -> map reparse l = l.
Proof.
  induction l as [| p l IH]; [reflexivity |]. cbn [forallb map].
  intros Hall. apply andb_true_iff in Hall as [Hp Hl].
  now rewrite (reparse_finite p Hp), IH.
Qed.

Lemma forallb_finite_map_reparse (l : list json) :
  forallb finite (map reparse l) = true.
Proof.
  induction l as [| p l IH]; [reflexivity |]. cbn [forallb map].
  now rewrite finite_reparse, IH.
Qed.

(** The name of an entry is a string, which is written and read back as it
    is. *)
Lemma lookup_reparse (k : string) (fields : list (string * json)) :
  lookup k (map (fun kv => (fst kv, reparse (snd kv))) fields)
  = option_map reparse (lookup k fields).
Proof.
  induction fields as [| [k' w] fields IH]; [reflexivity |].
  cbn [map lookup fst snd]. destruct (k' =? k); [reflexivity | exact IH].
Qed.

Lemma prop_reparse (v : json) (k : string) :
  prop (reparse v) k = option_map reparse (prop v k).
Proof. destruct v; try reflexivity. apply lookup_reparse. Qed.

Lemma name_of_reparse (p : json) : name_of (reparse p) = name_of p.
Proof.
  unfold name_of. rewrite prop_reparse.
  destruct (prop p "name") as [[| | | | | |] |]; reflexivity.
Qed.

Lemma load_valid (st : storage) : forallb valid (loadPresets st) = true.
Proof.
  destruct st as [[| v] |]; try reflexivity.
  destruct v; try reflexivity. apply forallb_filter.
Qed.

Lemma load_save (l : list json) :
  loadPresets (savePresets l) = filter valid (map reparse l).
Proof. reflexivity. Qed.

Lemma load_save_finite (l : list json) :
  forallb finite (loadPresets (savePresets l)) = true.
Proof.
  rewrite load_save. apply forallb_filter_other, forallb_finite_map_reparse.
Qed.

Lemma load_save_origin (l : list json) (p : json) :
  In p (loadPresets (savePresets l)) ->
  exists q, In q l /\ p = reparse q /\ name_of p = name_of q.
Proof.
  rewrite load_save. intros Hp. apply filter_In in Hp as [Hp _].
  apply in_map_iff in Hp as [q [Hq Hin]]. exists q.
  split; [exact Hin |]. split; [now symmetry |].
  rewrite <- Hq. apply name_of_reparse.
Qed.


Lemma save_finite (l : list json) :
  forallb finite l = true -> savePresets l = Some (Json (JArr l)).
Proof.
  intros Hfin. unfold savePresets, stringify. cbn [reparse].
  now rewrite map_reparse_finite.
Qed.

Lemma load_save_valid (l : list json) :
  forallb valid l = true -> forallb finite l = true ->
  loadPresets (savePresets l) = l.
Proof.
  intros Hall Hfin. rewrite load_save, map_reparse_finite by exact Hfin.
  now apply filter_all.
Qed.

Lemma valid_has_name (p : json) :
  valid p = true -> prop p "name" = Some (JStr (name_of p)).
Proof.
  unfold valid, name_of. intros Hv.
  apply andb_true_iff in Hv as [Hv _]. apply andb_true_iff in Hv as [_ Hn].
  destruct (prop p "name") as [[| | | | s | |] |]; try discriminate.
  reflexivity.
Qed.

Lemma preset_valid (name createdAt : string) (i : Inputs) :
  valid (preset name createdAt i) = true.
Proof. reflexivity. Qed.

Lemma preset_finite (name createdAt : string) (i : Inputs) :
  finite (preset name createdAt i) = true.
Proof. reflexivity. Qed.

Lemma preset_name (name createdAt : string) (i : Inputs) :
  name_of (preset name createdAt i) = name.
Proof. reflexivity. Qed.

(** [findIndex] and the assignment at the index found. *)

Lemma findIndex_Some {A : Type} (f : A -> bool) (l : list A) :
  forall n d,
    findIndex f l = Some n ->
    (n < List.length l)%nat /\ f (nth n l d) = true.
Proof.
  induction l as [| x l IH]; intros n d Hfind; [discriminate |].
  cbn [findIndex] in Hfind. destruct (f x) eqn:Hx.
  - injection Hfind as <-. cbn [nth List.length]. split; [lia | exact Hx].
  - destruct (findIndex f l) as [m |] eqn:Hrest; [| discriminate].
    injection Hfind as <-. destruct (IH m d eq_refl) as [Hlt Hf].
    cbn [nth List.length]. split; [lia | exact Hf].
Qed.

Lemma findIndex_first {A : Type} (f : A -> bool) (l : list A) :
  forall n d,
    findIndex f l = Some n ->
    forall m, (m < n)%nat -> f (nth m l d) = false.
Proof.
  induction l as [| x l IH]; intros n d Hfind m Hm; [discriminate |].
  cbn [findIndex] in Hfind. destruct (f x) eqn:Hx.
  - injection Hfind as <-. lia.
  - destruct (findIndex f l) as [k |] eqn:Hrest; [| discriminate].
    injection Hfind as <-. destruct m as [| m]; [exact Hx |].
    cbn [nth]. apply (IH k d eq_refl). lia.
Qed.

Lemma findIndex_None {A : Type} (f : A -> bool) (l : list A) :
  findIndex f l = None -> forall x, In x l -> f x = false.
Proof.
  induction l as [| y l IH]; intros Hfind x []; cbn [findIndex] in Hfind;
    destruct (f y) eqn:Hy; try discriminate;
    destruct (findIndex f l) eqn:Hrest; try discriminate.
  - now subst.
  - now apply IH.
Qed.

Lemma set_at_length {A : Type} (x : A) (l : list A) :
  forall n, List.length (set_at n x l) = List.length l.
Proof.
  induction l as [| y l IH]; intros [| n]; cbn [set_at List.length];
    try reflexivity.
  now rewrite IH.
Qed.



Lemma set_at_map {A B : Type} (g : A -> B) (x : A) (l : list A) :
  forall n, map g (set_at n x l) = set_at n (g x) (map g l).
Proof.
  induction l as [| y l IH]; intros [| n]; cbn [set_at map]; try reflexivity.
  now rewrite IH.
Qed.

Lemma set_at_same {A : Type} (d : A) (l : list A) :
  forall n, (n < List.length l)%nat -> set_at n (nth n l d) l = l.
Proof.
  induction l as [| y l IH]; intros [| n] Hn; cbn [List.length] in Hn;
    try lia; cbn [set_at nth]; [reflexivity |].
  f_equal. apply IH. lia.
Qed.

Lemma NoDup_firstn {A : Type} (n : nat) (l : list A) :
  NoDup l -> NoDup (firstn n l).
Proof.
  intros Hnd. rewrite <- (firstn_skipn n l) in Hnd.
  now apply NoDup_app_remove_r in Hnd.
Qed.

(** The example store holds its two presets, which are valid and without
    infinite numbers, under the names "b" and "c". *)
Lemma two_stored_loads : loadPresets two_stored = two_presets.
Proof. reflexivity. Qed.

Lemma two_presets_valid : forallb valid two_presets = true.
Proof. reflexivity. Qed.

Lemma two_presets_finite : forallb finite two_presets = true.
Proof. reflexivity. Qed.

Lemma two_presets_names : map name_of two_presets = ["b"; "c"].
Proof. reflexivity. Qed.

End PresetFacts.

Section PresetTheorems.

Import String Presets.
Local Open Scope string_scope.

(** X19: [loadPresets] never fails.  A missing item, a text that does not
    parse and a parsed value that is not an array all give the empty list;
    from an array it keeps, in order, exactly the entries that are truthy,
    have a string [name] and truthy [inputs], so every entry it returns has
    a string name. *)
Theorem X19_load_edge_cases_and_validity (st : storage) :
  loadPresets None = []
  /\ loadPresets (Some Malformed) = []
  /\ (forall v, (forall items, v <> JArr items) ->
                loadPresets (Some (Json v)) = [])
  /\ (forall items,
        loadPresets (Some (Json (JArr items))) = filter valid items)
  /\ Forall (fun p => valid p = true
                      /\ prop p "name" = Some (JStr (name_of p)))
            (loadPresets st).
Proof.
  split; [reflexivity |]. split; [reflexivity |].
  split.
  { intros v Hv. destruct v; try reflexivity. now destruct (Hv items). }
  split; [reflexivity |].
  pose proof (load_valid st) as Hall. rewrite forallb_forall in Hall.
  apply Forall_forall. intros p Hp.
  split; [now apply Hall | apply valid_has_name; now apply Hall].
Qed.

(** X20: what [loadPresets] reads after [savePresets] is the saved list as
    [JSON.stringify] writes it, less the entries that are not valid once
    written: every infinite number in it has become [null].  The list is
    read back unchanged when its entries are valid and hold no infinite
    number; an entry that is valid only through an infinite [inputs] is
    lost. *)
Theorem X20_save_then_load (l : list json) :
  loadPresets (savePresets l) = filter valid (map reparse l)
  /\ forallb finite (loadPresets (savePresets l)) = true
  /\ Forall (fun p => exists q,
                 In q l /\ p = reparse q /\ name_of p = name_of q)
            (loadPresets (savePresets l))
  /\ (forallb valid l = true -> forallb finite l = true ->
      loadPresets (savePresets l) = l)
  /\ (forall name,
        valid (overflowing name) = true
        /\ loadPresets (savePresets [overflowing name]) = []).
Proof.
  split; [apply load_save |].
  split; [apply load_save_finite |].
  split; [apply Forall_forall; intros p Hp; now apply load_save_origin |].
  split; [apply load_save_valid |].
  intros name. split; reflexivity.
Qed.

(** X20 for the two presets of the example store. *)
Lemma X20_save_then_load_witness :
  forallb valid two_presets = true
  /\ forallb finite two_presets = true
  /\ loadPresets (savePresets two_presets) = two_presets.
Proof.
  split; [exact two_presets_valid |].
  split; [exact two_presets_finite |].
  exact (proj1 (proj2 (proj2 (proj2 (X20_save_then_load two_presets))))
           two_presets_valid two_presets_finite).
Defined.

Section Upsert.

Variable toLowerCase : string -> string.
Variable trim : string -> string.
Variable now : string.

Let upsert := upsertPreset toLowerCase trim now.
Let key (p : json) : string := toLowerCase (name_of p).

Lemma upsert_blank (name : string) (i : Inputs) (st : storage) :
  trim name = "" -> upsert name i st = (loadPresets st, st).
Proof.
  intros Hblank. unfold upsert, upsertPreset. cbv zeta.
  now rewrite Hblank.
Qed.

(** The two ways a save with a name that is not blank can go. *)
Lemma upsert_cases (name : string) (i : Inputs) (st : storage) :
  trim name <> "" ->
  let l := loadPresets st in
  let next := preset (trim name) now i in
  (exists n,
      findIndex (fun p => key p =? toLowerCase (trim name)) l = Some n
      /\ upsert name i st = (set_at n next l, savePresets (set_at n next l)))
  \/ (findIndex (fun p => key p =? toLowerCase (trim name)) l = None
      /\ upsert name i st
         = (firstn 50 (next :: l), savePresets (firstn 50 (next :: l)))).
Proof.
  intros Hname. cbv zeta. unfold upsert, upsertPreset, key. cbv zeta.
  destruct (trim name =? "") eqn:Hblank;
    [apply String.eqb_eq in Hblank; contradiction |].
  destruct (findIndex _ (loadPresets st)) as [n |] eqn:Hfind.
  - left. exists n. split; reflexivity.
  - right. split; reflexivity.
Qed.


End Upsert.



(** X23: a save keeps the names distinct: if no two stored presets have
    the same name up to case, the same holds for the list after the save
    (whatever the name, blank or not). *)
Theorem X23_upsert_keeps_names_distinct
        (toLowerCase trim : string -> string) (now name : string)
        (i : Inputs) (st : storage) :
  NoDup (map (fun p => toLowerCase (name_of p)) (loadPresets st)) ->
  NoDup (map (fun p => toLowerCase (name_of p))
             (fst (upsertPreset toLowerCase trim now name i st))).
Proof.
  intros Hnd.
  destruct (String.eqb (trim name) "") eqn:Hblank.
  - apply String.eqb_eq in Hblank.
    now rewrite (upsert_blank toLowerCase trim now name i st Hblank).
  - apply String.eqb_neq in Hblank.
    destruct (upsert_cases toLowerCase trim now name i st Hblank)
      as [[n [Hfind Heq]] | [Hfind Heq]]; cbv zeta in Heq; rewrite Heq;
      cbn [fst].
    + destruct (findIndex_Some _ _ n JNull Hfind) as [Hlt Hkey].
      apply String.eqb_eq in Hkey.
      rewrite (set_at_map (fun p => toLowerCase (name_of p))).
      cbn beta. rewrite preset_name, <- Hkey.
      rewrite <- (map_nth (fun p => toLowerCase (name_of p))).
      rewrite set_at_same by (rewrite length_map; exact Hlt).
      exact Hnd.
    + rewrite <- firstn_map. apply NoDup_firstn.
      cbn [map]. rewrite preset_name. constructor; [| exact Hnd].
      intros Hin. apply in_map_iff in Hin as [p [Hp Hin]].
      pose proof (findIndex_None _ _ Hfind p Hin) as Hne.
      cbn beta in Hne. rewrite Hp, String.eqb_refl in Hne. discriminate.
Qed.

(** X23 for a save under the stored name "c" on the example store. *)
Lemma X23_upsert_keeps_names_distinct_witness :
  NoDup (map (fun p => (fun s : string => s) (name_of p))
             (loadPresets two_stored))
  /\ NoDup (map (fun p => (fun s : string => s) (name_of p))
                (fst (upsertPreset (fun s => s) (fun s => s) "2024" "c"
                                   oversheeted_input two_stored))).
Proof.
  assert (NoDup (map (fun p => (fun s : string => s) (name_of p))
                     (loadPresets two_stored))) as Hnd.
  { change (NoDup ["b"; "c"]).
    constructor; [intros [H | []]; discriminate H |].
    constructor; [intros [] | constructor]. }
  split; [exact Hnd |].
  exact (X23_upsert_keeps_names_distinct (fun s => s) (fun s => s) "2024" "c"
           oversheeted_input two_stored Hnd).
Defined.

(** X24: a save under a name that matches a stored preset up to case
    replaces the first such entry in place (no entry before it matches)
    and keeps the length of the list (even above 50).  A save under a new
    name puts the preset first and keeps only the first 49 of the stored
    presets behind it: with 50 or more presets stored, the list comes back
    with exactly 50 entries and the stored presets from the 50th on are
    gone. *)
Theorem X24_upsert_replaces_or_prepends_and_caps
        (toLowerCase trim : string -> string) (now name : string)
        (i : Inputs) (st : storage) :
  trim name <> "" ->
  let l := loadPresets st in
  let next := preset (trim name) now i in
  let out := fst (upsertPreset toLowerCase trim now name i st) in
  (exists n,
      (n < List.length l)%nat
      /\ (forall m, (m < n)%nat ->
            toLowerCase (name_of (nth m l JNull))
            <> toLowerCase (trim name))
      /\ toLowerCase (name_of (nth n l JNull)) = toLowerCase (trim name)
      /\ out = set_at n next l
      /\ List.length out = List.length l)
  \/ ((forall p, In p l ->
                 toLowerCase (name_of p) <> toLowerCase (trim name))
      /\ out = next :: firstn 49 l
      /\ List.length out = Nat.min (S (List.length l)) 50
      /\ ((50 <= List.length l)%nat -> List.length out = 50%nat)).
Proof.
  intros Hname. cbv zeta.
  destruct (upsert_cases toLowerCase trim now name i st Hname)
    as [[n [Hfind Heq]] | [Hfind Heq]]; cbv zeta in Heq; rewrite Heq;
    cbn [fst].
  - left. exists n.
    destruct (findIndex_Some _ _ n JNull Hfind) as [Hlt Hkey].
    apply String.eqb_eq in Hkey.
    split; [exact Hlt |].
    split.
    { intros m Hm Heqk.
      pose proof (findIndex_first _ _ n JNull Hfind m Hm) as Hne.
      cbn beta in Hne. rewrite Heqk, String.eqb_refl in Hne. discriminate. }
    split; [exact Hkey |].
    split; [reflexivity | apply set_at_length].
  - right. split.
    { intros p Hp Heqk.
      pose proof (findIndex_None _ _ Hfind p Hp) as Hne.
      cbn beta in Hne. rewrite Heqk, String.eqb_refl in Hne. discriminate. }
    split; [reflexivity |].
    assert (List.length
              (firstn 50 (preset (trim name) now i :: loadPresets st))
            = Nat.min (S (List.length (loadPresets st))) 50) as Hlen
      by (rewrite length_firstn; cbn [List.length]; lia).
    split; [exact Hlen |]. intros Hbig. rewrite Hlen. lia.
Qed.

(** X24 for a save under the stored name "c" on the example store: the
    second entry is replaced, the first stays. *)
Lemma X24_upsert_witness :
  (fun s : string => s) "c" <> ""
  /\ fst (upsertPreset (fun s => s) (fun s => s) "2024" "c"
                       oversheeted_input two_stored)
     = [preset "b" "2023" downwind_input;
        preset "c" "2024" oversheeted_input].
Proof.
  assert ((fun s : string => s) "c" <> "") as Hname by discriminate.
  split; [exact Hname |].
  pose proof (X24_upsert_replaces_or_prepends_and_caps
                (fun s => s) (fun s => s) "2024" "c" oversheeted_input
                two_stored Hname) as H.
  cbv zeta in H. rewrite two_stored_loads in H.
  destruct H as [[n [Hlt [_ [Hkey [Hout _]]]]] | [Hnone _]].
  - destruct n as [| [| n]].
    + discriminate Hkey.
    + exact Hout.
    + cbn [List.length two_presets] in Hlt. lia.
  - exfalso.
    apply (Hnone (preset "c" "2023" aft_quarter_input));
      [right; left |]; reflexivity.
Defined.

(** X25: [deletePreset] returns, and saves, the loaded presets without
    those whose name is exactly the given one (the comparison is case
    sensitive): no entry of that name is left in the list returned or in
    what is read from the storage afterwards, every other entry stays and
    none is added.  When the loaded presets hold no infinite number, the
    storage reads back as the list returned and deleting the same name
    again changes nothing. *)
Theorem X25_delete_removes_exact_name (name : string) (st : storage) :
  let res := deletePreset name st in
  Forall (fun p => name_of p <> name) (fst res)
  /\ (forall p, In p (loadPresets st) -> name_of p <> name ->
                In p (fst res))
  /\ (forall p, In p (fst res) -> In p (loadPresets st))
  /\ (List.length (fst res) <= List.length (loadPresets st))%nat
  /\ loadPresets (snd res) = filter valid (map reparse (fst res))
  /\ Forall (fun p => name_of p <> name) (loadPresets (snd res))
  /\ (forallb finite (loadPresets st) = true ->
      loadPresets (snd res) = fst res
      /\ deletePreset name (snd res) = res).
Proof.
  cbv zeta. unfold deletePreset. cbv zeta. cbn [fst snd].
  set (keep := fun p => negb (name_of p =? name)).
  set (out := filter keep (loadPresets st)).
  assert (forall p, In p out -> name_of p <> name) as Hgone.
  { intros p Hp. unfold out in Hp.
    apply filter_In in Hp as [_ Hk]. unfold keep in Hk.
    apply negb_true_iff, String.eqb_neq in Hk. exact Hk. }
  split; [apply Forall_forall; exact Hgone |].
  split.
  { intros p Hp Hne. unfold out. apply filter_In. split; [exact Hp |].
    unfold keep. now apply negb_true_iff, String.eqb_neq. }
  split.
  { intros p Hp. unfold out in Hp. now apply filter_In in Hp as [Hp _]. }
  split; [apply filter_length_le |].
  split; [apply load_save |].
  split.
  { apply Forall_forall. intros p Hp.
    destruct (load_save_origin out p Hp) as [q [Hq [_ Hname]]].
    rewrite Hname. now apply Hgone. }
  intros Hfin.
  assert (loadPresets (savePresets out) = out) as Hload.
  { apply load_save_valid; apply forallb_filter_other;
      [apply load_valid | exact Hfin]. }
  split; [exact Hload |].
  rewrite Hload.
  assert (filter keep out = out) as Hidem.
  { apply filter_all, forallb_forall. intros p Hp. unfold out in Hp.
    now apply filter_In in Hp as [_ Hk]. }
  now rewrite Hidem.
Qed.

(** X25 for deleting "b" from the example store. *)
Lemma X25_delete_witness :
  forallb finite (loadPresets two_stored) = true
  /\ loadPresets (snd (deletePreset "b" two_stored))
     = fst (deletePreset "b" two_stored)
  /\ Forall (fun p => name_of p <> "b") (fst (deletePreset "b" two_stored)).
Proof.
  assert (forallb finite (loadPresets two_stored) = true) as Hfin
    by exact two_presets_finite.
  pose proof (X25_delete_removes_exact_name "b" two_stored) as H.
  cbv zeta in H. destruct H as [Hgone [_ [_ [_ [_ [_ Hload]]]]]].
  split; [exact Hfin |].
  split; [exact (proj1 (Hload Hfin)) | exact Hgone].
Defined.

(** An import of an array of valid entries saves its first 200 entries and
    returns what is then read from the storage. *)
Lemma import_valid_items (items : list json) (st : storage) :
  forallb valid items = true ->
  importPresetsJson (Json (JArr items)) st
  = (inr (filter valid (map reparse (firstn 200 items))),
     savePresets (firstn 200 items)).
Proof.
  intros Hall. unfold importPresetsJson. rewrite Hall. reflexivity.
Qed.

Lemma import_finite_items (items : list json) (st : storage) :
  forallb valid items = true -> forallb finite items = true ->
  importPresetsJson (Json (JArr items)) st
  = (inr (firstn 200 items), Some (Json (JArr (firstn 200 items)))).
Proof.
  intros Hall Hfin. rewrite import_valid_items by exact Hall.
  rewrite <- load_save.
  rewrite load_save_valid by now apply forallb_firstn.
  rewrite save_finite by now apply forallb_firstn.
  reflexivity.
Qed.

(** X26: importing a text that parses to an array of valid entries saves
    its first 200 entries (replacing whatever was stored) and returns what
    [loadPresets] then reads: those entries as [JSON.stringify] writes
    them, less the ones that are not valid once written.  When the entries
    hold no infinite number, the import stores and returns exactly the
    first 200 of them.  An array whose one entry has the [inputs] of an
    overflowing literal is accepted, stored with [inputs] null, and the
    import returns the empty list. *)
Theorem X26_import_stores_first_200 (items : list json) (st : storage) :
  let res := importPresetsJson (Json (JArr items)) st in
  (forallb valid items = true ->
   res = (inr (filter valid (map reparse (firstn 200 items))),
          savePresets (firstn 200 items))
   /\ fst res = inr (loadPresets (snd res))
   /\ (List.length (loadPresets (snd res)) <= 200)%nat)
  /\ (forallb valid items = true -> forallb finite items = true ->
      res = (inr (firstn 200 items), Some (Json (JArr (firstn 200 items))))
      /\ loadPresets (snd res) = firstn 200 items)
  /\ (forall name,
        importPresetsJson (Json (JArr [overflowing name])) st
        = (inr [],
           Some (Json (JArr [JObj [("name", JStr name);
                                   ("inputs", JNull)]])))).
Proof.
  cbv zeta. split; [| split].
  - intros Hall. rewrite (import_valid_items items st Hall). cbn [fst snd].
    split; [reflexivity |]. split; [now rewrite load_save |].
    rewrite load_save.
    eapply Nat.le_trans; [apply filter_length_le |].
    rewrite length_map, length_firstn. lia.
  - intros Hall Hfin. rewrite (import_finite_items items st Hall Hfin).
    cbn [snd]. split; [reflexivity |].
    cbn [loadPresets]. apply filter_all. now apply forallb_firstn.
  - intros name. reflexivity.
Qed.

(** X26 for an import of the two presets of the example store into an
    empty store. *)
Lemma X26_import_witness :
  forallb valid two_presets = true
  /\ forallb finite two_presets = true
  /\ importPresetsJson (Json (JArr two_presets)) None
     = (inr (firstn 200 two_presets),
        Some (Json (JArr (firstn 200 two_presets)))).
Proof.
  split; [exact two_presets_valid |].
  split; [exact two_presets_finite |].
  pose proof (X26_import_stores_first_200 two_presets None) as H.
  cbv zeta in H.
  exact (proj1 (proj1 (proj2 H) two_presets_valid two_presets_finite)).
Defined.

(** X27: an import that fails leaves the store untouched.  It throws a
    [SyntaxError] on a text that does not parse, "JSON must be an array of
    presets." on a value that is not an array, and "Invalid preset
    structure." as soon as one entry of the array is not valid, wherever it
    stands (also beyond the 200 entries an import keeps). *)
Theorem X27_failed_import_changes_nothing (t : text) (st : storage) :
  (forall e, fst (importPresetsJson t st) = inl e ->
             snd (importPresetsJson t st) = st)
  /\ importPresetsJson Malformed st = (inl SyntaxError, st)
  /\ (forall v, (forall items, v <> JArr items) ->
        importPresetsJson (Json v) st
        = (inl (Error "JSON must be an array of presets."), st))
  /\ (forall items p,
        In p items -> valid p = false ->
        importPresetsJson (Json (JArr items)) st
        = (inl (Error "Invalid preset structure."), st)).
Proof.
  split.
  { intros e He. unfold importPresetsJson in *.
    destruct t as [| v]; [reflexivity |].
    destruct v; try reflexivity.
    destruct (forallb valid items); [discriminate | reflexivity]. }
  split; [reflexivity |].
  split.
  { intros v Hv. destruct v; try reflexivity. now destruct (Hv items). }
  intros items p Hp Hinvalid. unfold importPresetsJson.
  destruct (forallb valid items) eqn:Hall; [| reflexivity].
  rewrite forallb_forall in Hall. rewrite (Hall p Hp) in Hinvalid.
  discriminate.
Qed.

(** X28: export then import.  When the presets a store loads hold no
    infinite number, importing the text that [exportPresetsJson] produced
    from it, into any store, returns the first 200 of them and makes them
    the stored list; with at most 200 presets the importing store then
    loads exactly what the exporting store loaded.  The export of a store
    holding one entry with the [inputs] of an overflowing literal is
    refused by the import with "Invalid preset structure.", and the
    importing store is left as it was. *)
Theorem X28_export_then_import (st st0 : storage) :
  (forallb finite (loadPresets st) = true ->
   importPresetsJson (exportPresetsJson st) st0
   = (inr (firstn 200 (loadPresets st)),
      Some (Json (JArr (firstn 200 (loadPresets st)))))
   /\ ((List.length (loadPresets st) <= 200)%nat ->
       loadPresets (snd (importPresetsJson (exportPresetsJson st) st0))
       = loadPresets st))
  /\ (forall name,
        loadPresets (Some (Json (JArr [overflowing name])))
        = [overflowing name]
        /\ importPresetsJson
             (exportPresetsJson (Some (Json (JArr [overflowing name])))) st0
           = (inl (Error "Invalid preset structure."), st0)).
Proof.
  split.
  - intros Hfin.
    assert (exportPresetsJson st = Json (JArr (loadPresets st))) as Hexp.
    { unfold exportPresetsJson, stringify. cbn [reparse].
      now rewrite map_reparse_finite. }
    rewrite Hexp.
    rewrite (import_finite_items (loadPresets st) st0 (load_valid st) Hfin).
    split; [reflexivity |].
    intros Hlen. cbn [snd]. rewrite firstn_all2 by exact Hlen.
    cbn [loadPresets]. apply filter_all, load_valid.
  - intros name. split; reflexivity.
Qed.

(** X28 from the example store into an empty store. *)
Lemma X28_export_then_import_witness :
  forallb finite (loadPresets two_stored) = true
  /\ (List.length (loadPresets two_stored) <= 200)%nat
  /\ loadPresets
       (snd (importPresetsJson (exportPresetsJson two_stored) None))
     = loadPresets two_stored.
Proof.
  assert (forallb finite (loadPresets two_stored) = true) as Hfin
    by exact two_presets_finite.
  assert (List.length (loadPresets two_stored) <= 200)%nat as Hlen
    by (rewrite two_stored_loads; cbn [List.length two_presets]; lia).
  split; [exact Hfin |]. split; [exact Hlen |].
  exact (proj2 (proj1 (X28_export_then_import two_stored None) Hfin) Hlen).
Defined.

End PresetTheorems.
